(** * sparse_dot_topn: row-pruned sparse matrix product

    A shallow embedding of [src/sparse_dot_topn/sparse_dot_topn_source.cpp]
    and the properties of its three entry points.

    Modelling conventions.
    - A C++ [int] is a [Z].  Signed overflow is undefined behaviour in C++,
      so no wrap-around is modelled.  On a valid input the counters stay
      within the sizes the caller passes: [length] is at most [n_col]
      ([row_width_le]), [nnz] at most the capacity of [Cj] and [Cx], and
      every index is a position of the array it indexes.
    - A C++ [double] is an abstract type [V] with the four operations the
      kernel uses (the literal 0, [+], [*] and [>]).  No property of the
      kernel assumes a law about them, so each holds of IEEE binary64, where
      addition is not associative: the value of a column is the sum as the
      kernel accumulates it, the products added to 0 in storage order
      ([stored_sum]).  The instance [float_value] runs the kernel on Rocq's
      primitive binary64 numbers.  The class [ExactArith] of the semiring
      laws serves only to compare [stored_sum] with the dense product
      ([stored_row_product]); binary64 is no instance of it
      ([binary64_not_exact]).
    - An array is a [list]; [aget] and [aset] are the indexed read and
      write.  Out of range accesses are undefined behaviour in C++: the
      model reads a default and ignores the write, and the validity
      hypotheses of the theorems exclude them.
    - [std::sort] and [std::partial_sort] belong to the C++ standard
      library; they are taken through the class [StdAlgorithm] with the
      contract the standard gives them ([StdAlgorithmSpec]), which leaves
      the order of equal values open. *)

From Stdlib Require Import ZArith Lia List Bool PrimFloat.
From Stdlib Require SpecFloat FloatAxioms.
From stdpp Require Import base tactics list list_numbers sorting.

Local Open Scope Z_scope.

(** ** Arrays and loops *)

(** [a[i]] *)
Definition aget {A} (d : A) (a : list A) (i : Z) : A :=
  if i <? 0 then d else nth (Z.to_nat i) a d.

(** [a[i] = x] *)
Definition aset {A} (a : list A) (i : Z) (x : A) : list A :=
  if i <? 0 then a else <[Z.to_nat i := x]> a.

(** [for (int x = lo; x < hi; x++) body] *)
Definition for_range {St} (lo hi : Z) (body : St → Z → St) (s : St) : St :=
  fold_left body (seqZ lo (hi - lo)) s.

(** [a[lo .. hi)] *)
Definition slice {A} (a : list A) (lo hi : Z) : list A :=
  take (Z.to_nat (hi - lo)) (drop (Z.to_nat lo) a).

(** ** Values and candidates *)

Class Value (V : Type) := {
  vzero : V;
  vadd : V → V → V;
  vmul : V → V → V;
  vgt : V → V → bool
}.

(** Modelled from the spec: the struct [candidate] is declared in
    [sparse_dot_topn_source.h], which is not among the sources.  The spec
    describes a candidate as a (column index, value) pair, and the kernel
    reads and writes its two fields, [index] and [value]. *)
Record candidate (V : Type) := Candidate { index : Z; value : V }.
Arguments Candidate {V} _ _.
Arguments index {V} _.
Arguments value {V} _.

(** [bool candidate_cmp(candidate c_i, candidate c_j)] *)
Definition candidate_cmp {V} `{!Value V} (c_i c_j : candidate V) : bool :=
  vgt (value c_i) (value c_j).

(** [std::sort(first, last, comp)] and
    [std::partial_sort(first, first + m, last, comp)], as functions from the
    vector before the call to the vector after it. *)
Class StdAlgorithm (V : Type) := {
  std_sort : (candidate V → candidate V → bool) → list (candidate V) → list (candidate V);
  std_partial_sort :
    (candidate V → candidate V → bool) → nat → list (candidate V) → list (candidate V)
}.

(** A sequence is sorted with respect to [comp] when [comp] holds of no
    later element against an earlier one. *)
Definition sorted_by {A} (comp : A → A → bool) : list A → Prop :=
  StronglySorted (λ x y, comp y x = false).

Class StdAlgorithmSpec (V : Type) `{!Value V} `{!StdAlgorithm V} : Prop := {
  std_sort_perm l : std_sort candidate_cmp l ≡ₚ l;
  std_sort_sorted l : sorted_by candidate_cmp (std_sort candidate_cmp l);
  std_partial_sort_perm m l :
    (m ≤ length l)%nat → std_partial_sort candidate_cmp m l ≡ₚ l;
  std_partial_sort_sorted m l :
    (m ≤ length l)%nat → sorted_by candidate_cmp (take m (std_partial_sort candidate_cmp m l));
  std_partial_sort_rest m l x y :
    (m ≤ length l)%nat →
    x ∈ take m (std_partial_sort candidate_cmp m l) →
    y ∈ drop m (std_partial_sort candidate_cmp m l) →
    candidate_cmp y x = false
}.

(** Exact arithmetic: the laws of a commutative semiring that relate the
    order of accumulation of the kernel to a dense dot product.  The
    integers have them, binary64 does not; no property of the kernel is
    stated under them. *)
Class ExactArith (V : Type) `{!Value V} : Prop := {
  vadd_comm x y : vadd x y = vadd y x;
  vadd_assoc x y z : vadd x (vadd y z) = vadd (vadd x y) z;
  vadd_0_l x : vadd vzero x = x;
  vmul_0_l x : vmul vzero x = vzero;
  vmul_0_r x : vmul x vzero = vzero;
  vmul_add_distr_l x y z : vmul x (vadd y z) = vadd (vmul x y) (vmul x z);
  vmul_add_distr_r x y z : vmul (vadd x y) z = vadd (vmul x z) (vmul y z)
}.

(** ** The kernel *)

Section Kernel.
Context {V : Type} `{!Value V} `{!StdAlgorithm V}.

(** The locals of one row's accumulation. *)
Record row_state := RowState {
  r_next : list Z;
  r_sums : list V;
  r_head : Z;
  r_length : Z
}.

(** Body of the [kk] loop (lines 88-96). *)
Definition accumulate_kk (Bj : list Z) (Bx : list V) (v : V)
    (st : row_state) (kk : Z) : row_state :=
  let k := aget 0 Bj kk in
  let sums := aset (r_sums st) k (vadd (aget vzero (r_sums st) k) (vmul v (aget vzero Bx kk))) in
  if aget 0 (r_next st) k =? -1
  then RowState (aset (r_next st) k (r_head st)) sums k (r_length st + 1)
  else RowState (r_next st) sums (r_head st) (r_length st).

(** Body of the [jj] loop (lines 82-97). *)
Definition accumulate_jj (Aj : list Z) (Ax : list V) (Bp Bj : list Z) (Bx : list V)
    (st : row_state) (jj : Z) : row_state :=
  let j := aget 0 Aj jj in
  let v := aget vzero Ax jj in
  let kk_start := aget 0 Bp j in
  let kk_end := aget 0 Bp (j + 1) in
  for_range kk_start kk_end (accumulate_kk Bj Bx v) st.

(** Lines 76-98: the accumulation of row [i]. *)
Definition accumulate_row (Ap Aj : list Z) (Ax : list V) (Bp Bj : list Z) (Bx : list V)
    (i : Z) (next : list Z) (sums : list V) : row_state :=
  let jj_start := aget 0 Ap i in
  let jj_end := aget 0 Ap (i + 1) in
  for_range jj_start jj_end (accumulate_jj Aj Ax Bp Bj Bx) (RowState next sums (-2) 0).

(** The variables of the finalization loop. *)
Record fin_state := FinState {
  f_next : list Z;
  f_sums : list V;
  f_head : Z;
  f_candidates : list (candidate V)
}.

(** Body of the finalization loop (lines 102-113). *)
Definition finalize_step (lower_bound : V) (st : fin_state) (jj : Z) : fin_state :=
  let head := f_head st in
  let candidates :=
    if vgt (aget vzero (f_sums st) head) lower_bound
    then f_candidates st ++ [Candidate head (aget vzero (f_sums st) head)]
    else f_candidates st in
  let temp := head in
  FinState (aset (f_next st) temp (-1)) (aset (f_sums st) temp vzero)
           (aget 0 (f_next st) head) candidates.

(** Lines 100-114. *)
Definition finalize_row (lower_bound : V) (st : row_state)
    (candidates : list (candidate V)) : fin_state :=
  for_range 0 (r_length st) (finalize_step lower_bound)
    (FinState (r_next st) (r_sums st) (r_head st) candidates).

(** Lines 116-122: the candidate vector after the (partial) sort, and [len].
    [candidates.begin() + ntop] with a negative [ntop] is undefined behaviour;
    the theorems about the output assume [0 <= ntop]. *)
Definition select_topn (ntop : Z) (candidates : list (candidate V))
    : list (candidate V) * Z :=
  let len := Z.of_nat (length candidates) in
  if len >? ntop
  then (std_partial_sort candidate_cmp (Z.to_nat ntop) candidates, ntop)
  else (std_sort candidate_cmp candidates, len).

(** The output cursor and the two output arrays it indexes. *)
Record out_state := OutState {
  o_Cj : list Z;
  o_Cx : list V;
  o_nnz : Z
}.

(** Body of the output loop (lines 125-127). *)
Definition emit_step (candidates : list (candidate V)) (o : out_state) (a : Z) : out_state :=
  let c := aget (Candidate 0 vzero) candidates a in
  OutState (aset (o_Cj o) (o_nnz o) (index c)) (aset (o_Cx o) (o_nnz o) (value c)) (o_nnz o + 1).

(** Lines 124-128. *)
Definition emit_row (candidates : list (candidate V)) (len : Z) (o : out_state) : out_state :=
  for_range 0 len (emit_step candidates) o.

(** The variables of [sparse_dot_topn_source] that live across rows. *)
Record topn_state := TopnState {
  s_next : list Z;
  s_sums : list V;
  s_candidates : list (candidate V);
  s_Cp : list Z;
  s_out : out_state
}.

(** Body of the row loop of [sparse_dot_topn_source] (lines 76-131). *)
Definition topn_row (Ap Aj : list Z) (Ax : list V) (Bp Bj : list Z) (Bx : list V)
    (ntop : Z) (lower_bound : V) (s : topn_state) (i : Z) : topn_state :=
  let acc := accumulate_row Ap Aj Ax Bp Bj Bx i (s_next s) (s_sums s) in
  let fin := finalize_row lower_bound acc (s_candidates s) in
  let '(candidates, len) := select_topn ntop (f_candidates fin) in
  let out := emit_row candidates len (s_out s) in
  TopnState (f_next fin) (f_sums fin) [] (aset (s_Cp s) (i + 1) (o_nnz out)) out.

(** Lines 66-73: the state before the first row. *)
Definition topn_init (n_col : Z) (Cp Cj : list Z) (Cx : list V) : topn_state :=
  TopnState (replicate (Z.to_nat n_col) (-1)) (replicate (Z.to_nat n_col) vzero) []
            (aset Cp 0 0) (OutState Cj Cx 0).

(** The state of [sparse_dot_topn_source] after its first [m] rows. *)
Definition topn_rows (n_col : Z) (Ap Aj : list Z) (Ax : list V) (Bp Bj : list Z) (Bx : list V)
    (ntop : Z) (lower_bound : V) (Cp Cj : list Z) (Cx : list V) (m : Z) : topn_state :=
  for_range 0 m (topn_row Ap Aj Ax Bp Bj Bx ntop lower_bound) (topn_init n_col Cp Cj Cx).

(** The output CSR triple. *)
Record csr := Csr {
  csr_p : list Z;
  csr_j : list Z;
  csr_x : list V
}.

(** [sparse_dot_topn_source]: the arrays [Cp], [Cj], [Cx] at return. *)
Definition sparse_dot_topn_source (n_row n_col : Z)
    (Ap Aj : list Z) (Ax : list V) (Bp Bj : list Z) (Bx : list V)
    (ntop : Z) (lower_bound : V) (Cp Cj : list Z) (Cx : list V) : csr :=
  let s := topn_rows n_col Ap Aj Ax Bp Bj Bx ntop lower_bound Cp Cj Cx n_row in
  Csr (s_Cp s) (o_Cj (s_out s)) (o_Cx (s_out s)).

(** The variables of [sparse_dot_plus_minmax_topn_source] that live across
    rows: those of [sparse_dot_topn_source] and [*minmax_ntop]. *)
Record plus_state := PlusState {
  p_next : list Z;
  p_sums : list V;
  p_candidates : list (candidate V);
  p_Cp : list Z;
  p_out : out_state;
  p_minmax_ntop : Z
}.

(** Body of the row loop of [sparse_dot_plus_minmax_topn_source]
    (lines 187-243).  Its accumulation (190-209), finalization (212-226),
    selection (228-234) and output (236-240) repeat lines 79-98, 100-114,
    116-122 and 124-128 of [sparse_dot_topn_source] word for word; line 210
    is the only addition. *)
Definition plus_row (Ap Aj : list Z) (Ax : list V) (Bp Bj : list Z) (Bx : list V)
    (ntop : Z) (lower_bound : V) (s : plus_state) (i : Z) : plus_state :=
  let acc := accumulate_row Ap Aj Ax Bp Bj Bx i (p_next s) (p_sums s) in
  let minmax_ntop :=
    if r_length acc >? p_minmax_ntop s then r_length acc else p_minmax_ntop s in
  let fin := finalize_row lower_bound acc (p_candidates s) in
  let '(candidates, len) := select_topn ntop (f_candidates fin) in
  let out := emit_row candidates len (p_out s) in
  PlusState (f_next fin) (f_sums fin) [] (aset (p_Cp s) (i + 1) (o_nnz out)) out minmax_ntop.

(** Lines 175-184. *)
Definition plus_init (n_col : Z) (Cp Cj : list Z) (Cx : list V) : plus_state :=
  PlusState (replicate (Z.to_nat n_col) (-1)) (replicate (Z.to_nat n_col) vzero) []
            (aset Cp 0 0) (OutState Cj Cx 0) 0.

(** The state of [sparse_dot_plus_minmax_topn_source] after its first [m]
    rows. *)
Definition plus_rows (n_col : Z) (Ap Aj : list Z) (Ax : list V) (Bp Bj : list Z) (Bx : list V)
    (ntop : Z) (lower_bound : V) (Cp Cj : list Z) (Cx : list V) (m : Z) : plus_state :=
  for_range 0 m (plus_row Ap Aj Ax Bp Bj Bx ntop lower_bound) (plus_init n_col Cp Cj Cx).

(** [sparse_dot_plus_minmax_topn_source]: the arrays [Cp], [Cj], [Cx] and
    [*minmax_ntop] at return. *)
Definition sparse_dot_plus_minmax_topn_source (n_row n_col : Z)
    (Ap Aj : list Z) (Ax : list V) (Bp Bj : list Z) (Bx : list V)
    (ntop : Z) (lower_bound : V) (Cp Cj : list Z) (Cx : list V) : csr * Z :=
  let s := plus_rows n_col Ap Aj Ax Bp Bj Bx ntop lower_bound Cp Cj Cx n_row in
  (Csr (p_Cp s) (o_Cj (p_out s)) (o_Cx (p_out s)), p_minmax_ntop s).

End Kernel.

(** The variables of [sparse_dot_only_minmax_topn_source] that live across
    rows. *)
Record only_state := OnlyState {
  w_unmarked : list bool;
  w_minmax_ntop : Z
}.

(** Body of the [kk] loop (lines 289-294), on [unmarked] and [length]. *)
Definition mark_kk (Bj : list Z) (st : list bool * Z) (kk : Z) : list bool * Z :=
  let k := aget 0 Bj kk in
  if aget false (fst st) k
  then (aset (fst st) k false, snd st + 1)
  else st.

(** Body of the [jj] loop (lines 284-295). *)
Definition mark_jj (Aj Bp Bj : list Z) (st : list bool * Z) (jj : Z) : list bool * Z :=
  let j := aget 0 Aj jj in
  let kk_start := aget 0 Bp j in
  let kk_end := aget 0 Bp (j + 1) in
  for_range kk_start kk_end (mark_kk Bj) st.

(** Body of the row loop (lines 279-297). *)
Definition only_row (Ap Aj Bp Bj : list Z) (s : only_state) (i : Z) : only_state :=
  let jj_start := aget 0 Ap i in
  let jj_end := aget 0 Ap (i + 1) in
  let '(unmarked, length) :=
    for_range jj_start jj_end (mark_jj Aj Bp Bj) (w_unmarked s, 0) in
  OnlyState unmarked (if length >? w_minmax_ntop s then length else w_minmax_ntop s).

(** [sparse_dot_only_minmax_topn_source]: [*minmax_ntop] at return. *)
Definition sparse_dot_only_minmax_topn_source (n_row n_col : Z) (Ap Aj Bp Bj : list Z) : Z :=
  w_minmax_ntop
    (for_range 0 n_row (only_row Ap Aj Bp Bj)
       (OnlyState (replicate (Z.to_nat n_col) true) 0)).

(** ** Validity of the input *)

Fixpoint nondecreasing (p : list Z) : bool :=
  match p with
  | a :: (b :: _) as t => (a <=? b) && nondecreasing t
  | _ => true
  end.

(** A CSR pattern of [n_rows] rows and [n_cols] columns: [n_rows + 1] row
    pointers starting at 0 and non-decreasing, no more stored entries than the
    index array holds, as many values as indices, every column index in
    range. *)
Definition valid_csr (n_rows n_cols : Z) (p j : list Z) (n_values : nat) : bool :=
  (0 <=? n_rows) && (Z.of_nat (length p) =? n_rows + 1) && (aget 0 p 0 =? 0)
  && nondecreasing p && (aget 0 p n_rows <=? Z.of_nat (length j))
  && (length j =? n_values)%nat
  && forallb (λ c, (0 <=? c) && (c <? n_cols)) j.

(** The preconditions on the inputs of the three entry points; the number of
    rows of [B] is read off its row pointers. *)
Definition valid_input {V} (n_row n_col : Z)
    (Ap Aj : list Z) (Ax : list V) (Bp Bj : list Z) (Bx : list V) : bool :=
  let n_inner := Z.of_nat (length Bp) - 1 in
  (0 <=? n_col)
  && valid_csr n_row n_inner Ap Aj (length Ax)
  && valid_csr n_inner n_col Bp Bj (length Bx).

(** ** The dense product and the statements of the claims *)

Section Spec.
Context {V : Type} `{!Value V} `{!StdAlgorithm V}.

Definition vsum (l : list V) : V := foldr vadd vzero l.

(** The positions of the stored entries of row [i]. *)
Definition row_entries (p : list Z) (i : Z) : list Z :=
  seqZ (aget 0 p i) (aget 0 p (i + 1) - aget 0 p i).

(** [M[i,c]] of the dense matrix a CSR triple stands for: the sum of the
    stored entries of row [i] in column [c]. *)
Definition entry (p j : list Z) (x : list V) (i c : Z) : V :=
  vsum (map (aget vzero x) (filter (λ e, aget 0 j e = c) (row_entries p i))).

(** [sum_j A[i,j] * B[j,k]] *)
Definition dot (Ap Aj : list Z) (Ax : list V) (Bp Bj : list Z) (Bx : list V) (i k : Z) : V :=
  vsum (map (λ j, vmul (entry Ap Aj Ax i j) (entry Bp Bj Bx j k))
            (seqZ 0 (Z.of_nat (length Bp) - 1))).

(** The columns [k] for which a stored entry [(i,j)] of [A] meets a stored
    entry [(j,k)] of [B], one occurrence for each such pair. *)
Definition reached (Ap Aj Bp Bj : list Z) (i : Z) : list Z :=
  flat_map (λ jj, map (aget 0 Bj) (row_entries Bp (aget 0 Aj jj))) (row_entries Ap i).

(** The number of distinct columns reached from row [i]. *)
Definition row_width (n_col : Z) (Ap Aj Bp Bj : list Z) (i : Z) : Z :=
  Z.of_nat (length (filter (λ k, k ∈ reached Ap Aj Bp Bj i) (seqZ 0 n_col))).

(** The number of columns of row [i] of the product above the threshold. *)
Definition row_width_above (n_col : Z) (Ap Aj : list Z) (Ax : list V)
    (Bp Bj : list Z) (Bx : list V) (lower_bound : V) (i : Z) : Z :=
  Z.of_nat (length (filter (λ k, vgt (dot Ap Aj Ax Bp Bj Bx i k) lower_bound = true)
                           (seqZ 0 n_col))).

(** The maximum of [f 0], ..., [f (n - 1)] and 0. *)
Definition max_over (f : Z → Z) (n : Z) : Z :=
  fold_left Z.max (map f (seqZ 0 n)) 0.

(** [{(k, sum_j A[i,j] * B[j,k]) : the sum is greater than lower_bound}],
    over all columns of the product. *)
Definition product_row (n_col : Z) (Ap Aj : list Z) (Ax : list V)
    (Bp Bj : list Z) (Bx : list V) (lower_bound : V) (i : Z) : list (candidate V) :=
  filter (λ c, vgt (value c) lower_bound = true)
    (map (λ k, Candidate k (dot Ap Aj Ax Bp Bj Bx i k)) (seqZ 0 n_col)).

(** The same set over the columns reached from row [i]. *)
Definition product_row_reached (n_col : Z) (Ap Aj : list Z) (Ax : list V)
    (Bp Bj : list Z) (Bx : list V) (lower_bound : V) (i : Z) : list (candidate V) :=
  filter (λ c, vgt (value c) lower_bound = true)
    (map (λ k, Candidate k (dot Ap Aj Ax Bp Bj Bx i k))
         (filter (λ k, k ∈ reached Ap Aj Bp Bj i) (seqZ 0 n_col))).

(** [out] is the [n] largest elements of [cands] by value, in descending
    order, or all of [cands] when it has fewer: [out] has [min n |cands|]
    elements, listed in descending order, and the elements of [cands] left
    out are no greater than any of them. *)
Definition is_topn (n : nat) (cands out : list (candidate V)) : Prop :=
  ∃ rest,
    cands ≡ₚ out ++ rest
    ∧ length out = Nat.min n (length cands)
    ∧ sorted_by candidate_cmp out
    ∧ ∀ o r, o ∈ out → r ∈ rest → candidate_cmp r o = false.

(** No value is greater than one before it. *)
Definition non_increasing : list V → Prop :=
  StronglySorted (λ x y, vgt y x = false).

(** Row [i] of an output CSR triple, as (column, value) pairs. *)
Definition output_row (C : csr) (i : Z) : list (candidate V) :=
  let lo := aget 0 (csr_p C) i in
  let hi := aget 0 (csr_p C) (i + 1) in
  zip_with Candidate (slice (csr_j C) lo hi) (slice (csr_x C) lo hi).

(** The caller's buffers are large enough: [n_row + 1] row pointers, and as
    many columns and values as the kernel emits. *)
Definition enough_capacity (n_row n_col : Z)
    (Ap Aj : list Z) (Ax : list V) (Bp Bj : list Z) (Bx : list V)
    (ntop : Z) (lower_bound : V) (Cp Cj : list Z) (Cx : list V) : bool :=
  let nnz :=
    o_nnz (s_out (topn_rows n_col Ap Aj Ax Bp Bj Bx ntop lower_bound Cp Cj Cx n_row)) in
  (n_row + 1 <=? Z.of_nat (length Cp))
  && (nnz <=? Z.of_nat (length Cj)) && (nnz <=? Z.of_nat (length Cx)).

(** The scratch arrays as allocated: every [next] the sentinel -1, every
    [sums] zero. *)
Definition clean_next (n_col : Z) : list Z := replicate (Z.to_nat n_col) (-1).
Definition clean_sums (n_col : Z) : list V := replicate (Z.to_nat n_col) vzero.

(** The candidates of row [i] as collected from clean scratch arrays, and
    the ones the row keeps. *)
Definition row_candidates (n_col : Z) (Ap Aj : list Z) (Ax : list V)
    (Bp Bj : list Z) (Bx : list V) (lower_bound : V) (i : Z) : list (candidate V) :=
  f_candidates
    (finalize_row lower_bound
       (accumulate_row Ap Aj Ax Bp Bj Bx i (clean_next n_col) (clean_sums n_col)) []).

Definition row_selected (n_col : Z) (Ap Aj : list Z) (Ax : list V)
    (Bp Bj : list Z) (Bx : list V) (ntop : Z) (lower_bound : V) (i : Z)
    : list (candidate V) :=
  let '(candidates, len) :=
    select_topn ntop (row_candidates n_col Ap Aj Ax Bp Bj Bx lower_bound i) in
  take (Z.to_nat len) candidates.

End Spec.

(** The two results a claim about the output CSR triple speaks of. *)
Definition topn_results {V} `{!Value V} `{!StdAlgorithm V} (n_row n_col : Z)
    (Ap Aj : list Z) (Ax : list V) (Bp Bj : list Z) (Bx : list V)
    (ntop : Z) (lower_bound : V) (Cp Cj : list Z) (Cx : list V) (C : csr) : Prop :=
  C = sparse_dot_topn_source n_row n_col Ap Aj Ax Bp Bj Bx ntop lower_bound Cp Cj Cx
  ∨ C = (sparse_dot_plus_minmax_topn_source n_row n_col Ap Aj Ax Bp Bj Bx
           ntop lower_bound Cp Cj Cx).1.

(** ** The accumulation as a fold, and the chain it builds *)

Section Chain.
Context {V : Type} `{!Value V}.

(** The pairs (column, product) that the accumulation of row [i] adds, in
    the order of the two nested loops. *)
Definition visits (Ap Aj : list Z) (Ax : list V) (Bp Bj : list Z) (Bx : list V)
    (i : Z) : list (Z * V) :=
  flat_map
    (λ jj, map (λ kk, (aget 0 Bj kk, vmul (aget vzero Ax jj) (aget vzero Bx kk)))
               (row_entries Bp (aget 0 Aj jj)))
    (row_entries Ap i).

(** One round of the innermost loop on a pair (column, product). *)
Definition touch (st : row_state) (kp : Z * V) : row_state :=
  let sums := aset (r_sums st) kp.1 (vadd (aget vzero (r_sums st) kp.1) kp.2) in
  if aget 0 (r_next st) kp.1 =? -1
  then RowState (aset (r_next st) kp.1 (r_head st)) sums kp.1 (r_length st + 1)
  else RowState (r_next st) sums (r_head st) (r_length st).

(** The products added to column [k]. *)
Definition contributions (k : Z) (vs : list (Z * V)) : list V :=
  map snd (filter (λ kp, kp.1 = k) vs).

(** What the kernel accumulates for column [k] of row [i]: the products of
    the stored pairs, added to 0 one after the other in storage order. *)
Definition stored_sum (Ap Aj : list Z) (Ax : list V) (Bp Bj : list Z) (Bx : list V)
    (i k : Z) : V :=
  fold_left vadd (contributions k (visits Ap Aj Ax Bp Bj Bx i)) vzero.

(** The reached columns of row [i] with their accumulated sums, above the
    threshold. *)
Definition stored_row (n_col : Z) (Ap Aj : list Z) (Ax : list V)
    (Bp Bj : list Z) (Bx : list V) (lower_bound : V) (i : Z) : list (candidate V) :=
  filter (λ c, vgt (value c) lower_bound = true)
    (map (λ k, Candidate k (stored_sum Ap Aj Ax Bp Bj Bx i k))
         (filter (λ k, k ∈ reached Ap Aj Bp Bj i) (seqZ 0 n_col))).

(** [chain next head ks]: following [next] from [head] visits the columns
    [ks] and ends at the initial head -2. *)
Inductive chain (next : list Z) : Z → list Z → Prop :=
  | chain_end : chain next (-2) []
  | chain_link k ks :
      0 ≤ k < Z.of_nat (length next) →
      chain next (aget 0 next k) ks →
      chain next k (k :: ks).

(** The state of an accumulation over [n] columns whose chain is [ks]. *)
Record acc_inv (n : nat) (st : @row_state V) (ks : list Z) : Prop := {
  inv_len_next : length (r_next st) = n;
  inv_chain : chain (r_next st) (r_head st) ks;
  inv_nodup : NoDup ks;
  inv_length : r_length st = Z.of_nat (length ks);
  inv_untouched k : 0 ≤ k < Z.of_nat n → k ∉ ks → aget 0 (r_next st) k = -1
}.

(** The candidates that finalization collects along the chain [ks]. *)
Definition chain_candidates (lower_bound : V) (sums : list V) (ks : list Z)
    : list (candidate V) :=
  map (λ k, Candidate k (aget vzero sums k))
      (filter (λ k, vgt (aget vzero sums k) lower_bound = true) ks).

End Chain.

(** ** The rows written so far *)

Section Rows.
Context {V : Type} `{!Value V} `{!StdAlgorithm V}.

(** One round of the output loop on the candidate it reads. *)
Definition push (o : out_state) (c : candidate V) : out_state :=
  OutState (aset (o_Cj o) (o_nnz o) (index c)) (aset (o_Cx o) (o_nnz o) (value c))
           (o_nnz o + 1).

(** [len] of row [i]. *)
Definition row_len (n_col : Z) (Ap Aj : list Z) (Ax : list V)
    (Bp Bj : list Z) (Bx : list V) (ntop : Z) (lower_bound : V) (i : Z) : Z :=
  (select_topn ntop (row_candidates n_col Ap Aj Ax Bp Bj Bx lower_bound i)).2.

(** [nnz] after the first [m] rows. *)
Fixpoint row_offset (len : Z → Z) (m : nat) : Z :=
  match m with
  | O => 0
  | S m' => row_offset len m' + len (Z.of_nat m')
  end.

(** The candidates kept by the first [m] rows, in the order written. *)
Fixpoint rows_upto (sel : Z → list (candidate V)) (m : nat) : list (candidate V) :=
  match m with
  | O => []
  | S m' => rows_upto sel m' ++ sel (Z.of_nat m')
  end.

(** A state of [sparse_dot_plus_minmax_topn_source] without [*minmax_ntop]. *)
Definition forget (p : plus_state) : @topn_state V :=
  TopnState (p_next p) (p_sums p) (p_candidates p) (p_Cp p) (p_out p).

End Rows.

(** ** What [sparse_dot_only_minmax_topn_source] counts *)

(** One round of its innermost loop on the column it reads. *)
Definition mark (st : list bool * Z) (k : Z) : list bool * Z :=
  if aget false st.1 k then (aset st.1 k false, st.2 + 1) else st.

(** The columns reached from the rows before [i]. *)
Definition reached_before (Ap Aj Bp Bj : list Z) (i : Z) : list Z :=
  flat_map (reached Ap Aj Bp Bj) (seqZ 0 i).

(** The number of distinct columns that row [i] reaches and no row before it. *)
Definition row_width_new (n_col : Z) (Ap Aj Bp Bj : list Z) (i : Z) : Z :=
  Z.of_nat
    (length
       (filter (λ k, k ∈ reached Ap Aj Bp Bj i ∧ k ∉ reached_before Ap Aj Bp Bj i)
          (seqZ 0 n_col))).

(** The stored entries of row [i] of a CSR triple, as (column, value)
    pairs in storage order. *)
Definition row_stored {V} `{!Value V} (p j : list Z) (x : list V) (i : Z) : list (Z * V) :=
  map (λ e, (aget 0 j e, aget vzero x e)) (row_entries p i).

(** ** An instance: integer values, insertion sort *)

#[export] Instance Z_value : Value Z :=
  {| vzero := 0; vadd := Z.add; vmul := Z.mul; vgt := Z.gtb |}.

(** Insertion before the first element that [comp] puts after [c]. *)
Fixpoint insert_by {A} (comp : A → A → bool) (c : A) (l : list A) : list A :=
  match l with
  | [] => [c]
  | d :: l' => if comp c d then c :: d :: l' else d :: insert_by comp c l'
  end.

Definition insertion_sort {A} (comp : A → A → bool) (l : list A) : list A :=
  foldr (insert_by comp) [] l.

#[export] Instance Z_algorithm : StdAlgorithm Z :=
  {| std_sort := insertion_sort; std_partial_sort := λ comp _ l, insertion_sort comp l |}.

(** ** An instance: binary64 values

    The [double] of the usual platforms: IEEE binary64, rounding to nearest,
    ties to even.  [x > y] is false when either side is not a number. *)

#[export] Instance float_value : Value float :=
  {| vzero := 0%float; vadd := PrimFloat.add; vmul := PrimFloat.mul;
     vgt := λ x y, PrimFloat.ltb y x |}.

#[export] Instance float_algorithm : StdAlgorithm float :=
  {| std_sort := insertion_sort; std_partial_sort := λ comp _ l, insertion_sort comp l |}.

(** ** The example of the specification

    [A = [[1, 2], [0, 3]]], [B] the identity, [ntop = 2], [lower_bound = 0],
    and buffers of three entries each. *)

Module Example.

Definition n_row : Z := 2.
Definition n_col : Z := 2.
Definition Ap : list Z := [0; 2; 3].
Definition Aj : list Z := [0; 1; 1].
Definition Ax : list Z := [1; 2; 3].
Definition Bp : list Z := [0; 1; 2].
Definition Bj : list Z := [0; 1].
Definition Bx : list Z := [1; 1].
Definition ntop : Z := 2.
Definition lower_bound : Z := 0.
Definition Cp : list Z := [0; 0; 0].
Definition Cj : list Z := [0; 0; 0].
Definition Cx : list Z := [0; 0; 0].

Definition C : csr :=
  sparse_dot_topn_source n_row n_col Ap Aj Ax Bp Bj Bx ntop lower_bound Cp Cj Cx.

End Example.

(** A second example: [A = [[0, 3], [1, 2], [0, 0]]] against the same [B];
    its row 1 is row 0 of the first example, and its row 2 stores nothing. *)

Module Example2.

Definition n_row : Z := 3.
Definition Ap : list Z := [0; 1; 3; 3].
Definition Aj : list Z := [1; 0; 1].
Definition Ax : list Z := [3; 1; 2].
Definition Cp : list Z := [0; 0; 0; 0; 7].
Definition Cj : list Z := [0; 0; 0; 8].
Definition Cx : list Z := [0; 0; 0; 9].

Definition C : csr :=
  sparse_dot_topn_source n_row Example.n_col Ap Aj Ax Example.Bp Example.Bj Example.Bx
    Example.ntop Example.lower_bound Cp Cj Cx.

End Example2.

(** An example at binary64, where the order of the additions shows:
    [A = [[1, 1, 1, 2^53], [0, 2^53, 1, 1]]] and
    [B = [[1, 2^53 + 2], [1, 0], [1, 0], [1, 0]]], the zeros not stored,
    [ntop = 1] and [lower_bound = 2^53].  Between [2^53] and [2^54] the
    binary64 numbers are the even integers.  Added to 0 from left to right,
    column 0 of row 0 is [2^53 + 4] ([3 + 2^53] rounds up) and column 0 of
    row 1 is [2^53] ([2^53 + 1] rounds down, twice). *)

Module Binary64.

Definition n_row : Z := 2.
Definition n_col : Z := 2.
Definition Ap : list Z := [0; 4; 7].
Definition Aj : list Z := [0; 1; 2; 3; 1; 2; 3].
Definition Ax : list float :=
  [1; 1; 1; 9007199254740992; 9007199254740992; 1; 1]%float.
Definition Bp : list Z := [0; 2; 3; 4; 5].
Definition Bj : list Z := [0; 1; 0; 0; 0].
Definition Bx : list float := [1; 9007199254740994; 1; 1; 1]%float.
Definition ntop : Z := 1.
Definition lower_bound : float := 9007199254740992%float.
Definition Cp : list Z := [0; 0; 0].
Definition Cj : list Z := [0; 0].
Definition Cx : list float := [0; 0]%float.

Definition C : csr :=
  sparse_dot_topn_source n_row n_col Ap Aj Ax Bp Bj Bx ntop lower_bound Cp Cj Cx.

End Binary64.

(** ** Arrays *)

Section Arrays.
Context {A : Type}.
Implicit Types (a : list A) (d x : A) (i j : Z).

Lemma aget_lookup d a i :
  0 ≤ i → aget d a i = default d (a !! Z.to_nat i).
Proof.
  intros Hi. unfold aget.
  destruct (Z.ltb_spec i 0); [lia|]. apply nth_lookup.
Qed.

Lemma length_aset a i x : length (aset a i x) = length a.
Proof. unfold aset. destruct (i <? 0); [done|]. apply length_insert. Qed.

Lemma aget_aset_eq d a i x :
  0 ≤ i < Z.of_nat (length a) → aget d (aset a i x) i = x.
Proof.
  intros Hi. rewrite aget_lookup by lia. unfold aset.
  destruct (Z.ltb_spec i 0); [lia|].
  rewrite list_lookup_insert_eq by lia. done.
Qed.

Lemma aget_aset_ne d a i j x :
  i ≠ j → aget d (aset a i x) j = aget d a j.
Proof.
  intros Hne. unfold aget, aset.
  destruct (Z.ltb_spec j 0); [done|].
  destruct (Z.ltb_spec i 0); [done|].
  rewrite !nth_lookup, list_lookup_insert_ne by lia. done.
Qed.

Lemma aget_replicate d n x i :
  0 ≤ i < Z.of_nat n → aget d (replicate n x) i = x.
Proof.
  intros Hi. rewrite aget_lookup by lia.
  rewrite lookup_replicate_2 by lia. done.
Qed.

Lemma aget_elem_of d a i :
  0 ≤ i < Z.of_nat (length a) → aget d a i ∈ a.
Proof.
  intros Hi. rewrite aget_lookup by lia.
  destruct (lookup_lt_is_Some_2 a (Z.to_nat i)) as [y Hy]; [lia|].
  rewrite Hy. simpl. by eapply list_elem_of_lookup_2.
Qed.

(** An array all of whose entries read [x] is [replicate _ x]. *)
Lemma replicate_aget d a n x :
  length a = n →
  (∀ i, 0 ≤ i < Z.of_nat n → aget d a i = x) →
  a = replicate n x.
Proof.
  intros Hlen Hget. symmetry. apply replicate_as_Forall. split; [done|].
  apply Forall_lookup. intros i y Hy.
  assert (i < length a)%nat by (by eapply lookup_lt_Some).
  specialize (Hget (Z.of_nat i)). rewrite aget_lookup in Hget by lia.
  rewrite Nat2Z.id, Hy in Hget. simpl in Hget. symmetry. apply Hget. lia.
Qed.

End Arrays.

(** ** Loops *)

Lemma for_range_empty {St} lo hi (body : St → Z → St) s :
  hi ≤ lo → for_range lo hi body s = s.
Proof. intros. unfold for_range. by rewrite seqZ_nil by lia. Qed.

Lemma for_range_snoc {St} lo hi (body : St → Z → St) s :
  lo ≤ hi → for_range lo (hi + 1) body s = body (for_range lo hi body s) hi.
Proof.
  intros. unfold for_range.
  replace (hi + 1 - lo) with ((hi - lo) + 1) by lia.
  rewrite seqZ_app by lia. rewrite fold_left_app.
  replace (lo + (hi - lo)) with hi by lia.
  rewrite (seqZ_cons hi 1) by lia. done.
Qed.

Lemma fold_left_flat_map {St B C} (f : St → C → St) (g : B → list C) l s :
  fold_left f (flat_map g l) s = fold_left (λ s x, fold_left f (g x) s) l s.
Proof.
  revert s. induction l as [|x l IH]; intros s; simpl; [done|].
  by rewrite fold_left_app, IH.
Qed.

Lemma fold_left_map {St B C} (f : St → C → St) (g : B → C) l s :
  fold_left f (map g l) s = fold_left (λ s x, f s (g x)) l s.
Proof. revert s. induction l as [|x l IH]; intros s; simpl; [done|]. by rewrite IH. Qed.

Lemma fold_left_ext_in {St B} (f g : St → B → St) l s :
  (∀ s x, x ∈ l → f s x = g s x) → fold_left f l s = fold_left g l s.
Proof.
  revert s. induction l as [|x l IH]; intros s Hfg; simpl; [done|].
  rewrite Hfg by left. apply IH. intros. apply Hfg. by right.
Qed.

(** ** Validity *)

Lemma nondecreasing_step p i :
  nondecreasing p = true → (S i < length p)%nat → nth i p 0 ≤ nth (S i) p 0.
Proof.
  revert i. induction p as [|a [|b p] IH]; intros i Hnd Hi; simpl in Hi; try lia.
  simpl in Hnd. apply andb_prop in Hnd as [Hab Hnd].
  destruct i as [|i]; [simpl; lia|].
  apply (IH i Hnd). simpl. lia.
Qed.

Lemma nondecreasing_aget p a b :
  nondecreasing p = true → 0 ≤ a ≤ b → b < Z.of_nat (length p) →
  aget 0 p a ≤ aget 0 p b.
Proof.
  intros Hnd [Ha Hab] Hb.
  replace b with (a + Z.of_nat (Z.to_nat (b - a))) in * by lia.
  induction (Z.to_nat (b - a)) as [|d IH].
  - replace (a + Z.of_nat 0) with a by lia. lia.
  - etrans; [apply IH; lia|].
    unfold aget.
    destruct (Z.ltb_spec (a + Z.of_nat d) 0); [lia|].
    destruct (Z.ltb_spec (a + Z.of_nat (S d)) 0); [lia|].
    replace (Z.to_nat (a + Z.of_nat (S d))) with (S (Z.to_nat (a + Z.of_nat d))) by lia.
    apply nondecreasing_step; [done|lia].
Qed.

(** What [valid_csr] gives: the stored entries of every row are positions of
    the index array, and every index is a column. *)
Lemma valid_csr_rows n_rows n_cols p j nv i e :
  valid_csr n_rows n_cols p j nv = true →
  0 ≤ i < n_rows → e ∈ row_entries p i → 0 ≤ e < Z.of_nat (length j).
Proof.
  unfold valid_csr. rewrite !andb_true_iff.
  intros [[[[[[Hn Hlen] H0] Hnd] Hlast] _] _] Hi He.
  apply Z.leb_le in Hn, Hlast. apply Z.eqb_eq in Hlen, H0.
  unfold row_entries in He. apply elem_of_seqZ in He.
  pose proof (nondecreasing_aget p 0 i Hnd).
  pose proof (nondecreasing_aget p (i + 1) n_rows Hnd).
  lia.
Qed.

Lemma valid_csr_cols n_rows n_cols p j nv e :
  valid_csr n_rows n_cols p j nv = true →
  0 ≤ e < Z.of_nat (length j) → 0 ≤ aget 0 j e < n_cols.
Proof.
  unfold valid_csr. rewrite !andb_true_iff. intros [_ Hall] He.
  rewrite forallb_forall in Hall.
  specialize (Hall (aget 0 j e)). rewrite andb_true_iff in Hall.
  destruct Hall as [H1 H2]; [|lia].
  apply list_elem_of_In, aget_elem_of. lia.
Qed.

Lemma valid_input_reached {V} n_row n_col Ap Aj (Ax : list V) Bp Bj (Bx : list V) i k :
  valid_input n_row n_col Ap Aj Ax Bp Bj Bx = true →
  0 ≤ i < n_row → k ∈ reached Ap Aj Bp Bj i → 0 ≤ k < n_col.
Proof.
  unfold valid_input. rewrite !andb_true_iff. intros [[_ HA] HB] Hi Hk.
  unfold reached in Hk. apply list_elem_of_In, in_flat_map in Hk as (jj & Hjj & Hk).
  apply in_map_iff in Hk as (kk & <- & Hkk).
  apply list_elem_of_In in Hjj, Hkk.
  eapply valid_csr_cols; [exact HB|].
  eapply valid_csr_rows; [exact HB| |exact Hkk].
  eapply valid_csr_cols; [exact HA|].
  eapply valid_csr_rows; [exact HA|exact Hi|exact Hjj].
Qed.

Lemma valid_input_inner {V} n_row n_col Ap Aj (Ax : list V) Bp Bj (Bx : list V) i jj :
  valid_input n_row n_col Ap Aj Ax Bp Bj Bx = true →
  0 ≤ i < n_row → jj ∈ row_entries Ap i →
  0 ≤ aget 0 Aj jj < Z.of_nat (length Bp) - 1.
Proof.
  unfold valid_input. rewrite !andb_true_iff. intros [[_ HA] HB] Hi Hjj.
  eapply valid_csr_cols; [exact HA|].
  eapply valid_csr_rows; [exact HA|exact Hi|exact Hjj].
Qed.

Lemma valid_input_n_col {V} n_row n_col Ap Aj (Ax : list V) Bp Bj (Bx : list V) :
  valid_input n_row n_col Ap Aj Ax Bp Bj Bx = true → 0 ≤ n_col.
Proof.
  unfold valid_input. rewrite !andb_true_iff. intros [[H _] _]. by apply Z.leb_le.
Qed.

(** ** The accumulation builds a chain over the reached columns *)

Section ChainFacts.
Context {V : Type} `{!Value V}.
Implicit Types (st : @row_state V) (ks : list Z) (vs : list (Z * V)).

Lemma accumulate_row_visits Ap Aj (Ax : list V) Bp Bj Bx i next sums :
  accumulate_row Ap Aj Ax Bp Bj Bx i next sums
  = fold_left touch (visits Ap Aj Ax Bp Bj Bx i) (RowState next sums (-2) 0).
Proof.
  unfold accumulate_row, visits, for_range, row_entries.
  rewrite fold_left_flat_map. apply fold_left_ext_in. intros st jj _.
  unfold accumulate_jj, for_range, row_entries. by rewrite fold_left_map.
Qed.

Lemma visits_columns Ap Aj (Ax : list V) Bp Bj Bx i :
  map fst (visits Ap Aj Ax Bp Bj Bx i) = reached Ap Aj Bp Bj i.
Proof.
  unfold visits, reached. induction (row_entries Ap i) as [|jj l IH]; simpl; [done|].
  rewrite map_app, IH, map_map. done.
Qed.

Lemma chain_range next h ks k :
  chain next h ks → k ∈ ks → 0 ≤ k < Z.of_nat (length next).
Proof.
  induction 1 as [|k' ks Hk' _ IH]; intros Hin.
  - by apply elem_of_nil in Hin.
  - apply elem_of_cons in Hin as [->|Hin]; auto.
Qed.

Lemma chain_head next h ks : chain next h ks → h ≠ -1.
Proof. destruct 1; lia. Qed.

Lemma chain_linked next h ks k :
  chain next h ks → k ∈ ks → aget 0 next k ≠ -1.
Proof.
  induction 1 as [|k' ks Hk' Hch IH]; intros Hin.
  - by apply elem_of_nil in Hin.
  - apply elem_of_cons in Hin as [->|Hin]; [|auto].
    by eapply chain_head.
Qed.

Lemma chain_ext next next' h ks :
  length next' = length next →
  (∀ k, k ∈ ks → aget 0 next' k = aget 0 next k) →
  chain next h ks → chain next' h ks.
Proof.
  intros Hlen Hext Hch. induction Hch as [|k ks Hk Hch IH]; [constructor|].
  constructor; [lia|].
  rewrite Hext by left. apply IH. intros. apply Hext. by right.
Qed.

Lemma acc_inv_init n (sums : list V) :
  acc_inv n (RowState (replicate n (-1)) sums (-2) 0) [].
Proof.
  constructor; simpl.
  - apply length_replicate.
  - constructor.
  - constructor.
  - done.
  - intros k Hk _. by apply aget_replicate.
Qed.

(** A node of the chain is recognised by its [next] entry. *)
Lemma acc_inv_member n st ks k :
  acc_inv n st ks → 0 ≤ k < Z.of_nat n →
  aget 0 (r_next st) k ≠ -1 ↔ k ∈ ks.
Proof.
  intros Hinv Hk. split.
  - intros Hne. destruct (decide (k ∈ ks)) as [|Hnot]; [done|].
    by pose proof (inv_untouched _ _ _ Hinv k Hk Hnot).
  - intros Hin. eapply chain_linked; [apply Hinv|done].
Qed.

Lemma touch_inv n st ks k (p : V) :
  acc_inv n st ks → 0 ≤ k < Z.of_nat n →
  ∃ ks', acc_inv n (touch st (k, p)) ks' ∧ ∀ x, x ∈ ks' ↔ x = k ∨ x ∈ ks.
Proof.
  intros Hinv Hk. pose proof (acc_inv_member n st ks k Hinv Hk) as Hmem.
  destruct Hinv as [Hlen Hch Hnd Hlength Hunt].
  unfold touch. simpl. destruct (Z.eqb_spec (aget 0 (r_next st) k) (-1)) as [Heq|Hne].
  - assert (k ∉ ks) as Hnotin by (intros Hin; by apply Hmem in Hin).
    exists (k :: ks). split; [|intros x; apply elem_of_cons].
    constructor; simpl.
    + by rewrite length_aset.
    + constructor; [rewrite length_aset; lia|].
      rewrite aget_aset_eq by lia.
      eapply chain_ext; [| |exact Hch]; [by rewrite length_aset|].
      intros x Hx. apply aget_aset_ne. intros ->. done.
    + by constructor.
    + lia.
    + intros x Hx Hnot. apply not_elem_of_cons in Hnot as [Hxk Hnot].
      rewrite aget_aset_ne by done. auto.
  - apply Hmem in Hne. exists ks. split.
    + by constructor.
    + intros x. split; [auto|]. intros [->|]; done.
Qed.

Lemma touches_inv n vs st ks :
  acc_inv n st ks →
  (∀ k, k ∈ map fst vs → 0 ≤ k < Z.of_nat n) →
  ∃ ks', acc_inv n (fold_left touch vs st) ks'
         ∧ ∀ x, x ∈ ks' ↔ x ∈ map fst vs ∨ x ∈ ks.
Proof.
  revert st ks. induction vs as [|[k p] vs IH]; intros st ks Hinv Hrange; simpl.
  - exists ks. split; [done|]. intros x. rewrite elem_of_nil. tauto.
  - destruct (touch_inv n st ks k p Hinv) as (ks1 & Hinv1 & Hks1).
    { apply Hrange. simpl. left. }
    destruct (IH _ _ Hinv1) as (ks2 & Hinv2 & Hks2).
    { intros x Hx. apply Hrange. simpl. by right. }
    exists ks2. split; [done|]. intros x.
    rewrite Hks2, Hks1, elem_of_cons. tauto.
Qed.

(** What the accumulation leaves in [sums]. *)
Lemma touch_sums_length st kp :
  length (r_sums (touch st kp)) = length (r_sums st).
Proof. unfold touch. destruct (_ =? _); simpl; apply length_aset. Qed.

Lemma touches_sums_length vs st :
  length (r_sums (fold_left touch vs st)) = length (r_sums st).
Proof.
  revert st. induction vs as [|kp vs IH]; intros st; simpl; [done|].
  by rewrite IH, touch_sums_length.
Qed.

Lemma touch_sums st kp k :
  0 ≤ kp.1 < Z.of_nat (length (r_sums st)) →
  aget vzero (r_sums (touch st kp)) k
  = if decide (kp.1 = k) then vadd (aget vzero (r_sums st) k) kp.2
    else aget vzero (r_sums st) k.
Proof.
  intros Hk.
  assert (r_sums (touch st kp)
          = aset (r_sums st) kp.1 (vadd (aget vzero (r_sums st) kp.1) kp.2)) as ->.
  { unfold touch. by destruct (_ =? _). }
  case_decide as Hdec.
  - subst k. by rewrite aget_aset_eq.
  - by rewrite aget_aset_ne.
Qed.

Lemma touches_sums vs st k :
  (∀ x, x ∈ map fst vs → 0 ≤ x < Z.of_nat (length (r_sums st))) →
  aget vzero (r_sums (fold_left touch vs st)) k
  = fold_left vadd (contributions k vs) (aget vzero (r_sums st) k).
Proof.
  revert st. induction vs as [|kp vs IH]; intros st Hrange; simpl; [done|].
  rewrite IH.
  - rewrite touch_sums by (apply Hrange; left).
    unfold contributions. rewrite filter_cons. by case_decide.
  - rewrite touch_sums_length. intros x Hx. apply Hrange. by right.
Qed.

End ChainFacts.

(** ** Finalization walks the chain and restores the scratch arrays *)

Section Finalize.
Context {V : Type} `{!Value V}.
Implicit Types (st : @row_state V) (ks : list Z) (sums : list V).

Lemma chain_candidates_cons lower_bound sums k ks :
  chain_candidates lower_bound sums (k :: ks)
  = (if vgt (aget vzero sums k) lower_bound
     then [Candidate k (aget vzero sums k)] else [])
    ++ chain_candidates lower_bound sums ks.
Proof.
  unfold chain_candidates.
  destruct (vgt (aget vzero sums k) lower_bound) eqn:Hgt.
  - by rewrite filter_cons_True.
  - by rewrite filter_cons_False by (by rewrite Hgt).
Qed.

Lemma chain_candidates_ext lower_bound sums sums' ks :
  (∀ k, k ∈ ks → aget vzero sums' k = aget vzero sums k) →
  chain_candidates lower_bound sums' ks = chain_candidates lower_bound sums ks.
Proof.
  induction ks as [|k ks IH]; intros Hext; [done|].
  rewrite !chain_candidates_cons, (Hext k) by left.
  f_equal. apply IH. intros. apply Hext. by right.
Qed.

Lemma finalize_chain lower_bound ks :
  ∀ (js : list Z) next sums head cands,
    length js = length ks →
    chain next head ks → NoDup ks →
    length sums = length next →
    ∃ fnext fsums,
      fold_left (finalize_step lower_bound) js (FinState next sums head cands)
      = FinState fnext fsums (-2) (cands ++ chain_candidates lower_bound sums ks)
      ∧ length fnext = length next
      ∧ length fsums = length sums
      ∧ (∀ k, aget 0 fnext k = if decide (k ∈ ks) then -1 else aget 0 next k)
      ∧ (∀ k, aget vzero fsums k = if decide (k ∈ ks) then vzero else aget vzero sums k).
Proof.
  induction ks as [|k ks IH]; intros js next sums head cands Hjs Hch Hnd Hlen.
  - destruct js; [|done]. inversion Hch; subst. exists next, sums. simpl.
    rewrite app_nil_r. repeat split; try done; intros k; by rewrite decide_False
      by apply not_elem_of_nil.
  - destruct js as [|j js]; [done|]. simpl in Hjs.
    inversion Hch as [|? ? Hk Hch']; subst. apply NoDup_cons in Hnd as [Hnotin Hnd].
    cbn [fold_left]. unfold finalize_step at 2. cbn [f_head f_next f_sums f_candidates].
    set (cands' := if vgt (aget vzero sums k) lower_bound
                   then cands ++ [Candidate k (aget vzero sums k)] else cands).
    destruct (IH js (aset next k (-1)) (aset sums k vzero) (aget 0 next k) cands')
      as (fnext & fsums & Hfold & Hln & Hls & Hn & Hs).
    + lia.
    + eapply chain_ext; [| |exact Hch']; [apply length_aset|].
      intros x Hx. apply aget_aset_ne. by intros ->.
    + done.
    + by rewrite !length_aset.
    + exists fnext, fsums. rewrite Hfold. repeat split.
      * f_equal. rewrite chain_candidates_cons.
        rewrite (chain_candidates_ext _ sums)
          by (intros x Hx; apply aget_aset_ne; by intros ->).
        subst cands'. destruct (vgt _ _); [by rewrite <- app_assoc|done].
      * by rewrite Hln, length_aset.
      * by rewrite Hls, length_aset.
      * intros x. rewrite Hn. destruct (decide (x = k)) as [->|Hne].
        -- rewrite decide_False by done. rewrite decide_True by left.
           apply aget_aset_eq. lia.
        -- rewrite aget_aset_ne by done.
           destruct (decide (x ∈ ks)).
           ++ by rewrite decide_True by (by right).
           ++ rewrite decide_False; [done|]. by apply not_elem_of_cons.
      * intros x. rewrite Hs. destruct (decide (x = k)) as [->|Hne].
        -- rewrite decide_False by done. rewrite decide_True by left.
           apply aget_aset_eq. lia.
        -- rewrite aget_aset_ne by done.
           destruct (decide (x ∈ ks)).
           ++ by rewrite decide_True by (by right).
           ++ rewrite decide_False; [done|]. by apply not_elem_of_cons.
Qed.

(** Finalizing a well-formed accumulation state leaves both scratch arrays
    as allocated and appends the candidates of the chain. *)
Lemma finalize_row_inv lower_bound n st ks cands :
  acc_inv n st ks →
  length (r_sums st) = n →
  (∀ k, 0 ≤ k < Z.of_nat n → k ∉ ks → aget vzero (r_sums st) k = vzero) →
  finalize_row lower_bound st cands
  = FinState (replicate n (-1)) (replicate n vzero) (-2)
             (cands ++ chain_candidates lower_bound (r_sums st) ks).
Proof.
  intros [Hlen Hch Hnd Hlength Hunt] Hls Hzero. unfold finalize_row, for_range.
  destruct (finalize_chain lower_bound ks (seqZ 0 (r_length st - 0))
              (r_next st) (r_sums st) (r_head st) cands)
    as (fnext & fsums & -> & Hln & Hlsf & Hn & Hs); try done.
  { rewrite length_seqZ. lia. }
  { lia. }
  f_equal.
  - apply (replicate_aget 0); [lia|]. intros k Hk. rewrite Hn.
    case_decide; [done|]. by apply Hunt.
  - apply (replicate_aget vzero); [lia|]. intros k Hk. rewrite Hs.
    case_decide; [done|]. by apply Hzero.
Qed.

End Finalize.

(** ** One row from clean scratch arrays *)

Section Row.
Context {V : Type} `{!Value V} `{!StdAlgorithm V}.
Variables (n_row n_col : Z) (Ap Aj : list Z) (Ax : list V) (Bp Bj : list Z) (Bx : list V).
Hypothesis Hvalid : valid_input n_row n_col Ap Aj Ax Bp Bj Bx = true.

Lemma contributions_nil k (vs : list (Z * V)) :
  k ∉ map fst vs → contributions k vs = [].
Proof.
  unfold contributions. induction vs as [|kp vs IH]; intros Hk; [done|].
  simpl in Hk. apply not_elem_of_cons in Hk as [Hne Hk].
  rewrite filter_cons_False by done. auto.
Qed.

(** The accumulation of row [i] from clean arrays: its chain holds the
    reached columns, once each, and [sums] holds their accumulated products. *)
Lemma accumulate_row_inv i :
  0 ≤ i < n_row →
  let acc := accumulate_row Ap Aj Ax Bp Bj Bx i (clean_next n_col) (clean_sums n_col) in
  ∃ ks,
    acc_inv (Z.to_nat n_col) acc ks
    ∧ (∀ k, k ∈ ks ↔ k ∈ reached Ap Aj Bp Bj i)
    ∧ length (r_sums acc) = Z.to_nat n_col
    ∧ ∀ k, 0 ≤ k < n_col →
        aget vzero (r_sums acc) k
        = fold_left vadd (contributions k (visits Ap Aj Ax Bp Bj Bx i)) vzero.
Proof.
  intros Hi acc. subst acc. rewrite accumulate_row_visits.
  assert (∀ k, k ∈ map fst (visits Ap Aj Ax Bp Bj Bx i) → 0 ≤ k < Z.of_nat (Z.to_nat n_col))
    as Hrange.
  { intros k Hk. rewrite visits_columns in Hk.
    pose proof (valid_input_reached _ _ _ _ _ _ _ _ _ _ Hvalid Hi Hk). lia. }
  destruct (touches_inv (Z.to_nat n_col) (visits Ap Aj Ax Bp Bj Bx i)
              (RowState (clean_next n_col) (clean_sums n_col) (-2) 0) [])
    as (ks & Hinv & Hks); [apply acc_inv_init|done|].
  exists ks. split; [done|]. split; [|split].
  - intros k. rewrite Hks, visits_columns, elem_of_nil. tauto.
  - rewrite touches_sums_length. apply length_replicate.
  - intros k Hk. rewrite touches_sums.
    + simpl. unfold clean_sums. by rewrite aget_replicate by lia.
    + simpl. unfold clean_sums. by rewrite length_replicate.
Qed.

(** Finalization of that row: the arrays are clean again, and the candidates
    are those of the chain. *)
Lemma finalize_row_clean lower_bound i cands :
  0 ≤ i < n_row →
  let acc := accumulate_row Ap Aj Ax Bp Bj Bx i (clean_next n_col) (clean_sums n_col) in
  ∃ ks,
    acc_inv (Z.to_nat n_col) acc ks
    ∧ (∀ k, k ∈ ks ↔ k ∈ reached Ap Aj Bp Bj i)
    ∧ finalize_row lower_bound acc cands
      = FinState (clean_next n_col) (clean_sums n_col) (-2)
                 (cands ++ chain_candidates lower_bound (r_sums acc) ks).
Proof.
  intros Hi acc. destruct (accumulate_row_inv i Hi) as (ks & Hinv & Hks & Hlen & Hsums).
  exists ks. split; [done|]. split; [done|].
  apply finalize_row_inv; [done|done|].
  intros k Hk Hnot. subst acc. rewrite Hsums by lia.
  rewrite contributions_nil; [done|].
  rewrite visits_columns. by rewrite <- Hks.
Qed.

Lemma row_candidates_chain lower_bound i :
  0 ≤ i < n_row →
  let acc := accumulate_row Ap Aj Ax Bp Bj Bx i (clean_next n_col) (clean_sums n_col) in
  ∃ ks,
    acc_inv (Z.to_nat n_col) acc ks
    ∧ (∀ k, k ∈ ks ↔ k ∈ reached Ap Aj Bp Bj i)
    ∧ row_candidates n_col Ap Aj Ax Bp Bj Bx lower_bound i
      = chain_candidates lower_bound (r_sums acc) ks.
Proof.
  intros Hi acc. destruct (finalize_row_clean lower_bound i [] Hi) as (ks & Hinv & Hks & Hfin).
  exists ks. split; [done|]. split; [done|].
  unfold row_candidates. subst acc. cbv zeta in Hfin. by rewrite Hfin.
Qed.

End Row.

(** ** Selection and output of one row *)

Section Select.
Context {V : Type} `{!Value V} `{!StdAlgorithm V}.
Implicit Types (cands cs : list (candidate V)) (o : @out_state V).

Lemma select_topn_len ntop cands :
  (select_topn ntop cands).2 = Z.min ntop (Z.of_nat (length cands)).
Proof.
  unfold select_topn. destruct (Z.gtb_spec (Z.of_nat (length cands)) ntop); simpl; lia.
Qed.

Lemma select_topn_length `{!StdAlgorithmSpec V} ntop cands :
  0 ≤ ntop → length (select_topn ntop cands).1 = length cands.
Proof.
  intros Hn. unfold select_topn.
  destruct (Z.gtb_spec (Z.of_nat (length cands)) ntop); simpl.
  - apply Permutation_length, std_partial_sort_perm. lia.
  - apply Permutation_length, std_sort_perm.
Qed.

Lemma select_topn_is_topn `{!StdAlgorithmSpec V} ntop cands :
  0 ≤ ntop →
  is_topn (Z.to_nat ntop) cands
    (take (Z.to_nat (select_topn ntop cands).2) (select_topn ntop cands).1).
Proof.
  intros Hn. unfold select_topn.
  destruct (Z.gtb_spec (Z.of_nat (length cands)) ntop) as [Hgt|Hle]; simpl.
  - assert (Z.to_nat ntop ≤ length cands)%nat as Hm by lia.
    set (cs := std_partial_sort candidate_cmp (Z.to_nat ntop) cands).
    exists (drop (Z.to_nat ntop) cs). split; [|split; [|split]].
    + rewrite take_drop. symmetry. by apply std_partial_sort_perm.
    + rewrite length_take. subst cs.
      rewrite (Permutation_length (std_partial_sort_perm _ _ Hm)). done.
    + by apply std_partial_sort_sorted.
    + intros o r Ho Hr. by eapply std_partial_sort_rest.
  - exists []. rewrite app_nil_r.
    assert (length (std_sort candidate_cmp cands) = length cands) as Hlen
      by apply Permutation_length, std_sort_perm.
    rewrite take_ge by lia. split; [|split; [|split]].
    + symmetry. apply std_sort_perm.
    + rewrite Hlen. lia.
    + apply std_sort_sorted.
    + intros o r _ Hr. by apply elem_of_nil in Hr.
Qed.

Lemma emit_steps_nnz cs (l : list Z) o :
  o_nnz (fold_left (emit_step cs) l o) = o_nnz o + Z.of_nat (length l).
Proof.
  revert o. induction l as [|a l IH]; intros o; simpl; [lia|].
  rewrite IH. simpl. lia.
Qed.

Lemma emit_row_nnz cs len o :
  0 ≤ len → o_nnz (emit_row cs len o) = o_nnz o + len.
Proof.
  intros Hlen. unfold emit_row, for_range. rewrite emit_steps_nnz, length_seqZ. lia.
Qed.

Lemma map_aget_seqZ {A} (d : A) (l : list A) (n : nat) :
  (n ≤ length l)%nat → map (aget d l) (seqZ 0 (Z.of_nat n)) = take n l.
Proof.
  induction n as [|n IH]; intros Hn; [done|].
  rewrite seqZ_S, map_app, IH by lia. simpl.
  destruct (lookup_lt_is_Some_2 l n) as [x Hx]; [lia|].
  rewrite (take_S_r _ _ x) by done. f_equal.
  rewrite aget_lookup by lia.
  replace (Z.to_nat (0 + Z.of_nat n)) with n by lia. by rewrite Hx.
Qed.

Lemma emit_row_push cs len o :
  0 ≤ len ≤ Z.of_nat (length cs) →
  emit_row cs len o = fold_left push (take (Z.to_nat len) cs) o.
Proof.
  intros Hlen. unfold emit_row, for_range.
  rewrite <- (map_aget_seqZ (Candidate 0 vzero)) by lia.
  rewrite fold_left_map. replace (Z.of_nat (Z.to_nat len)) with (len - 0) by lia. done.
Qed.

Lemma take_S_aset {A} (a : list A) (n : Z) x :
  0 ≤ n < Z.of_nat (length a) →
  take (S (Z.to_nat n)) (aset a n x) = take (Z.to_nat n) a ++ [x].
Proof.
  intros Hn. unfold aset. destruct (Z.ltb_spec n 0); [lia|].
  rewrite insert_take_drop by lia.
  rewrite take_app_ge by (rewrite length_take; lia).
  rewrite length_take. replace (S (Z.to_nat n) - _)%nat with 1%nat by lia. done.
Qed.

Lemma drop_S_aset {A} (a : list A) (n : Z) (m : nat) x :
  0 ≤ n → (Z.to_nat n < m)%nat → drop m (aset a n x) = drop m a.
Proof.
  intros Hn Hm. unfold aset. destruct (Z.ltb_spec n 0); [lia|].
  by rewrite drop_insert_lt.
Qed.

(** The closed form of a run of the output loop within capacity. *)
Lemma pushes l :
  ∀ o, 0 ≤ o_nnz o →
    o_nnz o + Z.of_nat (length l) ≤ Z.of_nat (length (o_Cj o)) →
    o_nnz o + Z.of_nat (length l) ≤ Z.of_nat (length (o_Cx o)) →
    fold_left push l o
    = OutState
        (take (Z.to_nat (o_nnz o)) (o_Cj o) ++ map index l
           ++ drop (Z.to_nat (o_nnz o) + length l) (o_Cj o))
        (take (Z.to_nat (o_nnz o)) (o_Cx o) ++ map value l
           ++ drop (Z.to_nat (o_nnz o) + length l) (o_Cx o))
        (o_nnz o + Z.of_nat (length l)).
Proof.
  induction l as [|c l IH]; intros [Cj Cx nnz] Hnnz HCj HCx;
    cbn [fold_left length map o_nnz o_Cj o_Cx push] in *.
  - cbn [app]. rewrite !Nat.add_0_r, !take_drop. f_equal. lia.
  - rewrite IH; unfold push; cbn [o_nnz o_Cj o_Cx];
      [|lia|rewrite length_aset; lia|rewrite length_aset; lia].
    replace (Z.to_nat (nnz + 1)) with (S (Z.to_nat nnz)) by lia.
    rewrite !take_S_aset by lia.
    rewrite !drop_S_aset by lia.
    rewrite <- !app_assoc. cbn [app].
    replace (S (Z.to_nat nnz) + length l)%nat with (Z.to_nat nnz + S (length l))%nat by lia.
    f_equal. lia.
Qed.

Lemma zip_index_value (l : list (candidate V)) :
  zip_with Candidate (map index l) (map value l) = l.
Proof. induction l as [|[k v] l IH]; simpl; [done|]. by rewrite IH. Qed.

End Select.

(** ** The row loop of [sparse_dot_topn_source] *)

Section Main.
Context {V : Type} `{!Value V} `{!StdAlgorithm V}.
Variables (n_row n_col : Z) (Ap Aj : list Z) (Ax : list V) (Bp Bj : list Z) (Bx : list V).
Variables (ntop : Z) (lower_bound : V) (Cp Cj : list Z) (Cx : list V).
Hypothesis Hvalid : valid_input n_row n_col Ap Aj Ax Bp Bj Bx = true.
Hypothesis Hntop : 0 ≤ ntop.

Local Abbreviation rows := (topn_rows n_col Ap Aj Ax Bp Bj Bx ntop lower_bound Cp Cj Cx).
Local Abbreviation cands := (row_candidates n_col Ap Aj Ax Bp Bj Bx lower_bound).
Local Abbreviation len := (row_len n_col Ap Aj Ax Bp Bj Bx ntop lower_bound).
Local Abbreviation sel := (row_selected n_col Ap Aj Ax Bp Bj Bx ntop lower_bound).

Lemma row_selected_eq i :
  sel i = take (Z.to_nat (len i)) (select_topn ntop (cands i)).1.
Proof. unfold row_selected, row_len. by destruct (select_topn _ _). Qed.

Lemma row_len_bounds i : 0 ≤ len i ≤ ntop.
Proof. unfold row_len. rewrite select_topn_len. lia. Qed.

Lemma row_selected_length `{!StdAlgorithmSpec V} i :
  Z.of_nat (length (sel i)) = len i.
Proof.
  rewrite row_selected_eq, length_take, select_topn_length by done.
  unfold row_len. rewrite select_topn_len. lia.
Qed.

Lemma row_offset_nonneg (m : nat) : 0 ≤ row_offset len m.
Proof.
  induction m as [|m IH]; simpl; [lia|].
  pose proof (row_len_bounds (Z.of_nat m)). lia.
Qed.

Lemma row_offset_mono (i m : nat) :
  (i ≤ m)%nat → 0 ≤ row_offset len i ≤ row_offset len m.
Proof.
  intros Him. split; [apply row_offset_nonneg|].
  induction m as [|m IH].
  - replace i with 0%nat by lia. lia.
  - destruct (decide (i = S m)) as [->|Hne]; [lia|].
    simpl. pose proof (row_len_bounds (Z.of_nat m)). lia.
Qed.

Lemma row_offset_step (m : nat) :
  row_offset len m ≤ row_offset len (S m) ≤ row_offset len m + ntop.
Proof. simpl. pose proof (row_len_bounds (Z.of_nat m)). lia. Qed.

Lemma rows_upto_length `{!StdAlgorithmSpec V} (m : nat) :
  Z.of_nat (length (rows_upto sel m)) = row_offset len m.
Proof.
  induction m as [|m IH]; simpl; [done|].
  rewrite length_app, Nat2Z.inj_add, IH, row_selected_length. done.
Qed.

(** A row that starts from clean scratch arrays and an empty candidate
    vector leaves them so. *)
Lemma topn_row_clean s i :
  0 ≤ i < n_row →
  s_next s = clean_next n_col → s_sums s = clean_sums n_col → s_candidates s = [] →
  topn_row Ap Aj Ax Bp Bj Bx ntop lower_bound s i
  = let out := emit_row (select_topn ntop (cands i)).1 (len i) (s_out s) in
    TopnState (clean_next n_col) (clean_sums n_col) []
              (aset (s_Cp s) (i + 1) (o_nnz out)) out.
Proof.
  intros Hi Hn Hs Hc. unfold topn_row, row_len, row_candidates. rewrite Hn, Hs, Hc.
  destruct (finalize_row_clean n_row n_col Ap Aj Ax Bp Bj Bx Hvalid lower_bound i [] Hi)
    as (ks & _ & _ & Hfin).
  cbv zeta in Hfin. rewrite Hfin. cbn [f_next f_sums f_candidates].
  by destruct (select_topn _ _).
Qed.

Lemma rows_S (m : nat) :
  rows (Z.of_nat (S m))
  = topn_row Ap Aj Ax Bp Bj Bx ntop lower_bound (rows (Z.of_nat m)) (Z.of_nat m).
Proof.
  unfold topn_rows. replace (Z.of_nat (S m)) with (Z.of_nat m + 1) by lia.
  apply for_range_snoc. lia.
Qed.

(** The state between rows: the scratch arrays are clean, the candidate
    vector is empty, and the cursor and the row pointers hold the running
    total of the rows' lengths. *)
Lemma topn_rows_state (m : nat) :
  (m ≤ Z.to_nat n_row)%nat →
  s_next (rows (Z.of_nat m)) = clean_next n_col
  ∧ s_sums (rows (Z.of_nat m)) = clean_sums n_col
  ∧ s_candidates (rows (Z.of_nat m)) = []
  ∧ o_nnz (s_out (rows (Z.of_nat m))) = row_offset len m
  ∧ length (s_Cp (rows (Z.of_nat m))) = length Cp
  ∧ ∀ i : nat, (i ≤ m)%nat → (i < length Cp)%nat →
      aget 0 (s_Cp (rows (Z.of_nat m))) (Z.of_nat i) = row_offset len i.
Proof.
  induction m as [|m IH]; intros Hm.
  - unfold topn_rows. rewrite for_range_empty by lia. simpl.
    repeat split; try done.
    + apply length_aset.
    + intros i Hi Hlt. replace i with 0%nat by lia. simpl.
      apply aget_aset_eq. lia.
  - destruct IH as (Hn & Hs & Hc & Hnnz & HlenCp & HCp); [lia|].
    rewrite rows_S, topn_row_clean by (done || lia). cbv zeta.
    cbn [s_next s_sums s_candidates s_out s_Cp].
    rewrite emit_row_nnz by apply row_len_bounds.
    repeat split; try done.
    + by rewrite Hnnz.
    + by rewrite length_aset.
    + intros i Hi Hlt. destruct (decide (i = S m)) as [->|Hne].
      * replace (Z.of_nat m + 1) with (Z.of_nat (S m)) by lia.
        rewrite aget_aset_eq by lia. by rewrite Hnnz.
      * rewrite aget_aset_ne by lia. apply HCp; lia.
Qed.

Lemma rows_upto_slice {B} (f : candidate V → B) (n i : nat) junk :
  (i < n)%nat →
  take (length (sel (Z.of_nat i)))
       (drop (length (rows_upto sel i)) (map f (rows_upto sel n) ++ junk))
  = map f (sel (Z.of_nat i)).
Proof.
  revert junk. induction n as [|n IH]; intros junk Hi; [lia|].
  simpl. rewrite map_app, <- app_assoc.
  destruct (decide (i = n)) as [->|Hne].
  - rewrite drop_app_length' by (by rewrite length_map).
    by rewrite take_app_length' by (by rewrite length_map).
  - apply IH. lia.
Qed.

(** The output arrays between rows, within capacity: the rows written so
    far, then what the caller left there. *)
Lemma topn_rows_out `{!StdAlgorithmSpec V} (m : nat) :
  (m ≤ Z.to_nat n_row)%nat →
  row_offset len (Z.to_nat n_row) ≤ Z.of_nat (length Cj) →
  row_offset len (Z.to_nat n_row) ≤ Z.of_nat (length Cx) →
  s_out (rows (Z.of_nat m))
  = OutState (map index (rows_upto sel m) ++ drop (length (rows_upto sel m)) Cj)
             (map value (rows_upto sel m) ++ drop (length (rows_upto sel m)) Cx)
             (row_offset len m).
Proof.
  intros Hm HCj HCx. induction m as [|m IH].
  - unfold topn_rows. rewrite for_range_empty by lia. done.
  - destruct (topn_rows_state m) as (Hn & Hs & Hc & _); [lia|].
    rewrite rows_S, topn_row_clean by (done || lia). cbv zeta. cbn [s_out].
    rewrite IH by lia.
    pose proof (row_offset_mono (S m) (Z.to_nat n_row) Hm) as Hmono.
    pose proof (rows_upto_length m) as Hlen_m.
    pose proof (rows_upto_length (S m)) as Hlen_Sm.
    pose proof (row_len_bounds (Z.of_nat m)) as Hlen.
    pose proof (row_selected_length (Z.of_nat m)) as Hsel.
    simpl in Hmono, Hlen_Sm.
    rewrite emit_row_push by (rewrite select_topn_length by done;
      unfold row_len; rewrite select_topn_len; lia).
    rewrite <- row_selected_eq.
    rewrite pushes; cbn [o_nnz o_Cj o_Cx];
      [|lia|rewrite length_app, length_map, length_drop; lia
       |rewrite length_app, length_map, length_drop; lia].
    replace (Z.to_nat (row_offset len m)) with (length (rows_upto sel m)) by lia.
    rewrite !take_app_length' by (by rewrite length_map).
    rewrite !drop_app_add' by (by rewrite length_map).
    rewrite !drop_drop. simpl.
    rewrite !map_app, <- !app_assoc, !length_app. f_equal. lia.
Qed.

End Main.

(** ** The output rows of [sparse_dot_topn_source] *)

Section Output.
Context {V : Type} `{!Value V} `{!StdAlgorithm V}.
Variables (n_row n_col : Z) (Ap Aj : list Z) (Ax : list V) (Bp Bj : list Z) (Bx : list V).
Variables (ntop : Z) (lower_bound : V) (Cp Cj : list Z) (Cx : list V).
Hypothesis Hvalid : valid_input n_row n_col Ap Aj Ax Bp Bj Bx = true.
Hypothesis Hntop : 0 ≤ ntop.
Hypothesis Hcap :
  enough_capacity n_row n_col Ap Aj Ax Bp Bj Bx ntop lower_bound Cp Cj Cx = true.

Local Abbreviation rows := (topn_rows n_col Ap Aj Ax Bp Bj Bx ntop lower_bound Cp Cj Cx).
Local Abbreviation len := (row_len n_col Ap Aj Ax Bp Bj Bx ntop lower_bound).
Local Abbreviation sel := (row_selected n_col Ap Aj Ax Bp Bj Bx ntop lower_bound).
Local Abbreviation result :=
  (sparse_dot_topn_source n_row n_col Ap Aj Ax Bp Bj Bx ntop lower_bound Cp Cj Cx).

Lemma valid_input_n_row : 0 ≤ n_row.
Proof.
  revert Hvalid. unfold valid_input, valid_csr. rewrite !andb_true_iff.
  intros [[_ [[[[[[H _] _] _] _] _] _]] _]. by apply Z.leb_le.
Qed.

Lemma capacity_Cp : n_row + 1 ≤ Z.of_nat (length Cp).
Proof.
  revert Hcap. unfold enough_capacity. rewrite !andb_true_iff.
  intros [[H _] _]. by apply Z.leb_le.
Qed.

Lemma capacity_Cj_Cx :
  row_offset len (Z.to_nat n_row) ≤ Z.of_nat (length Cj)
  ∧ row_offset len (Z.to_nat n_row) ≤ Z.of_nat (length Cx).
Proof.
  pose proof valid_input_n_row as Hn.
  destruct (topn_rows_state n_row n_col Ap Aj Ax Bp Bj Bx ntop lower_bound Cp Cj Cx
              Hvalid Hntop (Z.to_nat n_row)) as (_ & _ & _ & Hnnz & _); [lia|].
  rewrite Z2Nat.id in Hnnz by done.
  revert Hcap. unfold enough_capacity. rewrite !andb_true_iff, Hnnz.
  intros [[_ H1] H2]. split; by apply Z.leb_le.
Qed.

(** The row pointers at return. *)
Lemma result_Cp (i : nat) :
  (i ≤ Z.to_nat n_row)%nat → aget 0 (csr_p result) (Z.of_nat i) = row_offset len i.
Proof.
  intros Hi. pose proof valid_input_n_row as Hn. pose proof capacity_Cp as HCp.
  destruct (topn_rows_state n_row n_col Ap Aj Ax Bp Bj Bx ntop lower_bound Cp Cj Cx
              Hvalid Hntop (Z.to_nat n_row)) as (_ & _ & _ & _ & _ & H); [lia|].
  rewrite Z2Nat.id in H by done. unfold sparse_dot_topn_source. cbn [csr_p].
  apply H; lia.
Qed.

(** The output arrays at return. *)
Lemma result_Cj_Cx `{!StdAlgorithmSpec V} :
  csr_j result
  = map index (rows_upto sel (Z.to_nat n_row))
    ++ drop (length (rows_upto sel (Z.to_nat n_row))) Cj
  ∧ csr_x result
    = map value (rows_upto sel (Z.to_nat n_row))
      ++ drop (length (rows_upto sel (Z.to_nat n_row))) Cx.
Proof.
  pose proof valid_input_n_row as Hn. destruct capacity_Cj_Cx as [HCj HCx].
  pose proof (topn_rows_out n_row n_col Ap Aj Ax Bp Bj Bx ntop lower_bound Cp Cj Cx
                Hvalid Hntop (Z.to_nat n_row)) as H.
  rewrite Z2Nat.id in H by done. unfold sparse_dot_topn_source. cbn [csr_j csr_x].
  rewrite H by (done || lia). done.
Qed.

(** The two slices of row [i] of the output hold what row [i] selects. *)
Lemma output_slices `{!StdAlgorithmSpec V} i :
  0 ≤ i < n_row →
  slice (csr_j result) (aget 0 (csr_p result) i) (aget 0 (csr_p result) (i + 1))
  = map index (sel i)
  ∧ slice (csr_x result) (aget 0 (csr_p result) i) (aget 0 (csr_p result) (i + 1))
    = map value (sel i).
Proof.
  intros Hi.
  assert (aget 0 (csr_p result) i = row_offset len (Z.to_nat i)) as Hlo.
  { rewrite <- result_Cp by lia. f_equal. lia. }
  assert (aget 0 (csr_p result) (i + 1) = row_offset len (S (Z.to_nat i))) as Hhi.
  { rewrite <- result_Cp by lia. f_equal. lia. }
  rewrite !Hlo, !Hhi.
  destruct result_Cj_Cx as [-> ->]. unfold slice.
  assert (Z.of_nat (length (rows_upto sel (Z.to_nat i))) = row_offset len (Z.to_nat i))
    as Hoff by (by apply rows_upto_length).
  assert (Z.of_nat (length (sel i)) = len i) as Hsel by (by apply row_selected_length).
  replace (Z.to_nat (row_offset len (Z.to_nat i))) with (length (rows_upto sel (Z.to_nat i)))
    by lia.
  replace (Z.to_nat (row_offset len (S (Z.to_nat i)) - row_offset len (Z.to_nat i)))
    with (length (sel (Z.of_nat (Z.to_nat i)))) by (simpl; rewrite Z2Nat.id by lia; lia).
  rewrite !rows_upto_slice by lia. by rewrite Z2Nat.id by lia.
Qed.

Lemma output_row_selected `{!StdAlgorithmSpec V} i :
  0 ≤ i < n_row → output_row result i = sel i.
Proof.
  intros Hi. unfold output_row. destruct (output_slices i Hi) as [-> ->].
  apply zip_index_value.
Qed.

(** The entries written are the rows selected, one after the other. *)
Lemma result_written `{!StdAlgorithmSpec V} :
  take (Z.to_nat (aget 0 (csr_p result) n_row)) (csr_x result)
  = map value (rows_upto sel (Z.to_nat n_row)).
Proof.
  pose proof valid_input_n_row as Hn.
  assert (aget 0 (csr_p result) n_row = row_offset len (Z.to_nat n_row)) as ->.
  { rewrite <- result_Cp by lia. f_equal. lia. }
  assert (Z.of_nat (length (rows_upto sel (Z.to_nat n_row)))
          = row_offset len (Z.to_nat n_row)) as Hoff by (by apply rows_upto_length).
  destruct result_Cj_Cx as [_ ->].
  apply take_app_length'. rewrite length_map. lia.
Qed.

End Output.

(** ** [sparse_dot_plus_minmax_topn_source] against [sparse_dot_topn_source] *)

Section Plus.
Context {V : Type} `{!Value V} `{!StdAlgorithm V}.
Variables (n_row n_col : Z) (Ap Aj : list Z) (Ax : list V) (Bp Bj : list Z) (Bx : list V).
Variables (ntop : Z) (lower_bound : V) (Cp Cj : list Z) (Cx : list V).

Local Abbreviation rows := (topn_rows n_col Ap Aj Ax Bp Bj Bx ntop lower_bound Cp Cj Cx).
Local Abbreviation prows := (plus_rows n_col Ap Aj Ax Bp Bj Bx ntop lower_bound Cp Cj Cx).

Lemma plus_row_forget s i :
  forget (plus_row Ap Aj Ax Bp Bj Bx ntop lower_bound s i)
  = topn_row Ap Aj Ax Bp Bj Bx ntop lower_bound (forget s) i.
Proof.
  unfold plus_row, topn_row, forget. cbn [s_next s_sums s_candidates s_Cp s_out].
  by destruct (select_topn _ _).
Qed.

Lemma plus_fold_forget (l : list Z) s :
  forget (fold_left (plus_row Ap Aj Ax Bp Bj Bx ntop lower_bound) l s)
  = fold_left (topn_row Ap Aj Ax Bp Bj Bx ntop lower_bound) l (forget s).
Proof.
  revert s. induction l as [|i l IH]; intros s; simpl; [done|].
  by rewrite IH, plus_row_forget.
Qed.

(** Both row loops pass through the same states, [*minmax_ntop] apart. *)
Lemma plus_rows_forget m : forget (prows m) = rows m.
Proof. unfold plus_rows, topn_rows, for_range. by rewrite plus_fold_forget. Qed.

(** The result of [sparse_dot_plus_minmax_topn_source] in terms of
    [sparse_dot_topn_source] and the last state of its own row loop. *)
Lemma plus_result_eq :
  sparse_dot_plus_minmax_topn_source n_row n_col Ap Aj Ax Bp Bj Bx
    ntop lower_bound Cp Cj Cx
  = (sparse_dot_topn_source n_row n_col Ap Aj Ax Bp Bj Bx ntop lower_bound Cp Cj Cx,
     p_minmax_ntop (prows n_row)).
Proof.
  unfold sparse_dot_plus_minmax_topn_source, sparse_dot_topn_source.
  by rewrite <- plus_rows_forget.
Qed.

Hypothesis Hvalid : valid_input n_row n_col Ap Aj Ax Bp Bj Bx = true.

(** Between rows the scratch arrays are as allocated and the candidate
    vector is empty. *)
Lemma topn_rows_clean (m : nat) :
  (m ≤ Z.to_nat n_row)%nat →
  s_next (rows (Z.of_nat m)) = clean_next n_col
  ∧ s_sums (rows (Z.of_nat m)) = clean_sums n_col
  ∧ s_candidates (rows (Z.of_nat m)) = [].
Proof.
  induction m as [|m IH]; intros Hm.
  - unfold topn_rows. by rewrite for_range_empty by lia.
  - destruct IH as (Hn & Hs & Hc); [lia|].
    erewrite rows_S, topn_row_clean by (done || lia). done.
Qed.

Lemma plus_rows_clean (m : nat) :
  (m ≤ Z.to_nat n_row)%nat →
  p_next (prows (Z.of_nat m)) = clean_next n_col
  ∧ p_sums (prows (Z.of_nat m)) = clean_sums n_col
  ∧ p_candidates (prows (Z.of_nat m)) = [].
Proof.
  intros Hm. destruct (topn_rows_clean m Hm) as (Hn & Hs & Hc).
  rewrite <- plus_rows_forget in Hn, Hs, Hc. done.
Qed.

(** The chain of a row holds as many columns as the row reaches. *)
Lemma accumulate_row_length i :
  0 ≤ i < n_row →
  r_length (accumulate_row Ap Aj Ax Bp Bj Bx i (clean_next n_col) (clean_sums n_col))
  = row_width n_col Ap Aj Bp Bj i.
Proof.
  intros Hi.
  destruct (accumulate_row_inv n_row n_col Ap Aj Ax Bp Bj Bx Hvalid i Hi)
    as (ks & Hinv & Hks & _).
  rewrite (inv_length _ _ _ Hinv). unfold row_width. f_equal.
  apply Permutation_length, NoDup_Permutation.
  - apply Hinv.
  - apply NoDup_filter, NoDup_seqZ.
  - intros k. rewrite list_elem_of_filter, elem_of_seqZ, Hks. split; [|tauto].
    intros Hk. split; [done|].
    pose proof (valid_input_reached _ _ _ _ _ _ _ _ _ _ Hvalid Hi Hk). lia.
Qed.

Lemma row_width_le i : 0 ≤ n_col → row_width n_col Ap Aj Bp Bj i ≤ n_col.
Proof.
  intros Hcol. unfold row_width.
  pose proof (length_filter (λ k, k ∈ reached Ap Aj Bp Bj i) (seqZ 0 n_col)) as Hle.
  rewrite length_seqZ in Hle. lia.
Qed.

Lemma max_over_S f (m : nat) :
  max_over f (Z.of_nat (S m)) = Z.max (max_over f (Z.of_nat m)) (f (Z.of_nat m)).
Proof. unfold max_over. by rewrite seqZ_S, map_app, fold_left_app. Qed.

Lemma plus_rows_S (m : nat) :
  prows (Z.of_nat (S m))
  = plus_row Ap Aj Ax Bp Bj Bx ntop lower_bound (prows (Z.of_nat m)) (Z.of_nat m).
Proof.
  unfold plus_rows. replace (Z.of_nat (S m)) with (Z.of_nat m + 1) by lia.
  apply for_range_snoc. lia.
Qed.

Lemma plus_row_minmax s i :
  p_minmax_ntop (plus_row Ap Aj Ax Bp Bj Bx ntop lower_bound s i)
  = Z.max (p_minmax_ntop s)
          (r_length (accumulate_row Ap Aj Ax Bp Bj Bx i (p_next s) (p_sums s))).
Proof.
  unfold plus_row. destruct (select_topn _ _). cbn [p_minmax_ntop].
  destruct (Z.gtb_spec (r_length (accumulate_row Ap Aj Ax Bp Bj Bx i (p_next s) (p_sums s)))
              (p_minmax_ntop s)); lia.
Qed.

(** [*minmax_ntop] between rows: the largest number of columns a row so far
    reaches. *)
Lemma plus_rows_minmax (m : nat) :
  (m ≤ Z.to_nat n_row)%nat →
  p_minmax_ntop (prows (Z.of_nat m)) = max_over (row_width n_col Ap Aj Bp Bj) (Z.of_nat m).
Proof.
  induction m as [|m IH]; intros Hm.
  - unfold plus_rows. by rewrite for_range_empty by lia.
  - destruct (plus_rows_clean m) as (Hn & Hs & _); [lia|].
    rewrite plus_rows_S, plus_row_minmax, max_over_S, IH, Hn, Hs by lia.
    by rewrite accumulate_row_length by lia.
Qed.

End Plus.

(** ** In exact arithmetic the accumulated sums are the dense dot products *)

Section Dense.
Context {V : Type} `{!Value V} `{!ExactArith V}.

Lemma vadd_0_r (x : V) : vadd x vzero = x.
Proof. by rewrite vadd_comm, vadd_0_l. Qed.

Lemma vsum_app (l1 l2 : list V) : vsum (l1 ++ l2) = vadd (vsum l1) (vsum l2).
Proof.
  induction l1 as [|x l1 IH]; simpl; [by rewrite vadd_0_l|].
  by rewrite IH, vadd_assoc.
Qed.

(** The left-to-right accumulation of the kernel is the sum. *)
Lemma fold_left_vadd (l : list V) a : fold_left vadd l a = vadd a (vsum l).
Proof.
  revert a. induction l as [|x l IH]; intros a; simpl; [by rewrite vadd_0_r|].
  by rewrite IH, vadd_assoc.
Qed.

Lemma vsum_flat_map {B} (g : B → list V) (l : list B) :
  vsum (flat_map g l) = vsum (map (λ x, vsum (g x)) l).
Proof.
  induction l as [|x l IH]; simpl; [done|]. rewrite vsum_app. by f_equal.
Qed.

Lemma vsum_mul_l {B} a (g : B → V) (l : list B) :
  vsum (map (λ x, vmul a (g x)) l) = vmul a (vsum (map g l)).
Proof.
  induction l as [|x l IH]; simpl; [by rewrite vmul_0_r|].
  by rewrite IH, vmul_add_distr_l.
Qed.

Lemma vsum_mul_r {B} b (g : B → V) (l : list B) :
  vsum (map (λ x, vmul (g x) b) l) = vmul (vsum (map g l)) b.
Proof.
  induction l as [|x l IH]; simpl; [by rewrite vmul_0_l|].
  by rewrite IH, vmul_add_distr_r.
Qed.

Lemma vsum_zero {B} (l : list B) : vsum (map (λ _, vzero) l) = vzero.
Proof. induction l as [|x l IH]; simpl; [done|]. by rewrite IH, vadd_0_l. Qed.

Lemma vsum_add {B} (f g : B → V) (l : list B) :
  vsum (map (λ x, vadd (f x) (g x)) l) = vadd (vsum (map f l)) (vsum (map g l)).
Proof.
  induction l as [|x l IH]; simpl; [by rewrite vadd_0_l|].
  rewrite IH, !vadd_assoc. f_equal.
  rewrite <- !vadd_assoc. f_equal. apply vadd_comm.
Qed.

Lemma vsum_indicator_out (c : Z) a (l : list Z) :
  c ∉ l → vsum (map (λ j, if decide (c = j) then a else vzero) l) = vzero.
Proof.
  induction l as [|x l IH]; intros Hc; simpl; [done|].
  apply not_elem_of_cons in Hc as [Hne Hc].
  rewrite decide_False by done. by rewrite IH, vadd_0_l.
Qed.

Lemma vsum_indicator (c : Z) a (l : list Z) :
  NoDup l → c ∈ l → vsum (map (λ j, if decide (c = j) then a else vzero) l) = a.
Proof.
  induction l as [|x l IH]; intros Hnd Hc; [by apply elem_of_nil in Hc|].
  apply NoDup_cons in Hnd as [Hx Hnd]. simpl.
  destruct (decide (c = x)) as [->|Hne].
  - by rewrite vsum_indicator_out, vadd_0_r.
  - apply elem_of_cons in Hc as [?|Hc]; [done|]. by rewrite IH, vadd_0_l.
Qed.

(** A sum may be taken key by key. *)
Lemma vsum_partition {B} (key : B → Z) (g : B → V) n (l : list B) :
  (∀ x, x ∈ l → 0 ≤ key x < n) →
  vsum (map g l)
  = vsum (map (λ j, vsum (map g (filter (λ x, key x = j) l))) (seqZ 0 n)).
Proof.
  induction l as [|x l IH]; intros Hkey.
  - simpl. by rewrite vsum_zero.
  - simpl. rewrite IH by (intros; apply Hkey; by right).
    rewrite <- (vsum_indicator (key x) (g x) (seqZ 0 n)).
    + rewrite <- vsum_add. f_equal. apply map_ext. intros j.
      rewrite filter_cons. case_decide; simpl; [done|by rewrite vadd_0_l].
    + apply NoDup_seqZ.
    + apply elem_of_seqZ. assert (0 ≤ key x < n) by (apply Hkey; left). lia.
Qed.

Lemma contributions_map {B} (k : Z) (col : B → Z) (p : B → V) (l : list B) :
  contributions k (map (λ e, (col e, p e)) l) = map p (filter (λ e, col e = k) l).
Proof.
  unfold contributions. induction l as [|e l IH]; [done|].
  simpl. rewrite !filter_cons. simpl. case_decide; simpl; by rewrite IH.
Qed.

Lemma contributions_app k (l1 l2 : list (Z * V)) :
  contributions k (l1 ++ l2) = contributions k l1 ++ contributions k l2.
Proof. unfold contributions. by rewrite filter_app, map_app. Qed.

Lemma contributions_visits Ap Aj (Ax : list V) Bp Bj Bx i k :
  contributions k (visits Ap Aj Ax Bp Bj Bx i)
  = flat_map
      (λ jj, map (λ kk, vmul (aget vzero Ax jj) (aget vzero Bx kk))
                 (filter (λ kk, aget 0 Bj kk = k) (row_entries Bp (aget 0 Aj jj))))
      (row_entries Ap i).
Proof.
  unfold visits. induction (row_entries Ap i) as [|jj l IH]; [done|].
  simpl. rewrite contributions_app, IH. f_equal.
  apply (contributions_map k (aget 0 Bj)
           (λ kk, vmul (aget vzero Ax jj) (aget vzero Bx kk))).
Qed.

Lemma visits_dot n_row n_col Ap Aj (Ax : list V) Bp Bj Bx i k :
  valid_input n_row n_col Ap Aj Ax Bp Bj Bx = true →
  0 ≤ i < n_row →
  vsum (contributions k (visits Ap Aj Ax Bp Bj Bx i)) = dot Ap Aj Ax Bp Bj Bx i k.
Proof.
  intros Hvalid Hi. rewrite contributions_visits, vsum_flat_map.
  rewrite (map_ext _ (λ jj, vmul (aget vzero Ax jj) (entry Bp Bj Bx (aget 0 Aj jj) k)))
    by (intros jj; apply vsum_mul_l).
  rewrite (vsum_partition (aget 0 Aj) _ (Z.of_nat (length Bp) - 1)).
  - unfold dot. f_equal. apply map_ext. intros j.
    unfold entry at 2. rewrite <- vsum_mul_r. f_equal.
    apply map_ext_in. intros jj Hjj.
    apply list_elem_of_In, list_elem_of_filter in Hjj as [-> _]. done.
  - intros jj Hjj. by eapply valid_input_inner.
Qed.

(** After the accumulation of row [i], [sums[k]] is [sum_j A[i,j] * B[j,k]]. *)
Lemma accumulate_row_dot n_row n_col Ap Aj (Ax : list V) Bp Bj Bx i k :
  valid_input n_row n_col Ap Aj Ax Bp Bj Bx = true →
  0 ≤ i < n_row → 0 ≤ k < n_col →
  aget vzero
    (r_sums (accumulate_row Ap Aj Ax Bp Bj Bx i (clean_next n_col) (clean_sums n_col))) k
  = dot Ap Aj Ax Bp Bj Bx i k.
Proof.
  intros Hvalid Hi Hk.
  destruct (accumulate_row_inv n_row n_col Ap Aj Ax Bp Bj Bx Hvalid i Hi)
    as (ks & _ & _ & _ & Hsums).
  rewrite Hsums by done. rewrite fold_left_vadd, vadd_0_l.
  by eapply visits_dot.
Qed.

End Dense.

(** ** The integer instance meets the contracts *)

#[export] Instance Z_exact : ExactArith Z.
Proof. split; simpl; intros; lia. Qed.

(** Binary64 does not have the laws of exact arithmetic: [(2^53 + 1) + 1]
    is [2^53], and [2^53 + (1 + 1)] is [2^53 + 2]. *)
Lemma binary64_not_exact : ¬ ExactArith float.
Proof.
  intros Hexact.
  pose proof (vadd_assoc (V:=float) 9007199254740992%float 1%float 1%float) as Hassoc.
  apply (f_equal (PrimFloat.eqb 9007199254740994%float)) in Hassoc.
  vm_compute in Hassoc. discriminate.
Qed.

Lemma Z_cmp_false (x y : candidate Z) : candidate_cmp x y = false ↔ value x ≤ value y.
Proof. unfold candidate_cmp. simpl. destruct (Z.gtb_spec (value x) (value y)); split; (done || lia). Qed.

Lemma insert_by_perm {A} (comp : A → A → bool) c l : insert_by comp c l ≡ₚ c :: l.
Proof.
  induction l as [|d l IH]; simpl; [done|].
  destruct (comp c d); [done|]. rewrite IH. apply Permutation_swap.
Qed.

Lemma insertion_sort_perm {A} (comp : A → A → bool) l : insertion_sort comp l ≡ₚ l.
Proof.
  unfold insertion_sort. induction l as [|c l IH]; simpl; [done|].
  by rewrite insert_by_perm, IH.
Qed.

Lemma insert_by_sorted (c : candidate Z) l :
  sorted_by candidate_cmp l → sorted_by candidate_cmp (insert_by candidate_cmp c l).
Proof.
  unfold sorted_by. induction l as [|d l IH]; intros Hs; cbn [insert_by].
  - by repeat constructor.
  - apply StronglySorted_cons in Hs as [Hd Hs].
    destruct (candidate_cmp c d) eqn:Hcd.
    + apply StronglySorted_cons. split; [|by apply StronglySorted_cons].
      assert (value d < value c) as Hlt.
      { unfold candidate_cmp in Hcd. simpl in Hcd. by apply Z.gtb_lt in Hcd. }
      constructor; [apply Z_cmp_false; lia|].
      eapply Forall_impl; [exact Hd|]. intros y Hy. cbv beta in Hy.
      apply Z_cmp_false in Hy. apply Z_cmp_false. lia.
    + apply StronglySorted_cons. split; [|by apply IH].
      rewrite insert_by_perm. by constructor.
Qed.

Lemma insertion_sort_sorted (l : list (candidate Z)) :
  sorted_by candidate_cmp (insertion_sort candidate_cmp l).
Proof.
  unfold insertion_sort. induction l as [|c l IH]; cbn [foldr]; [constructor|].
  by apply insert_by_sorted.
Qed.

#[export] Instance Z_algorithm_spec : StdAlgorithmSpec Z.
Proof.
  split; cbn [std_sort std_partial_sort Z_algorithm].
  - apply insertion_sort_perm.
  - apply insertion_sort_sorted.
  - intros. apply insertion_sort_perm.
  - intros m l _. pose proof (insertion_sort_sorted l) as Hs.
    rewrite <- (take_drop m (insertion_sort candidate_cmp l)) in Hs.
    by apply StronglySorted_app_1_l in Hs.
  - intros m l x y _ Hx Hy. pose proof (insertion_sort_sorted l) as Hs.
    rewrite <- (take_drop m (insertion_sort candidate_cmp l)) in Hs.
    by apply (StronglySorted_app_1_elem_of _ _ _ x y) in Hs.
Qed.

(** ** The binary64 instance meets the contract of the sorting routines *)

(** The comparison of binary64 numbers is a strict order, false when either
    side is not a number. *)
Lemma SFltb_asym x y : SpecFloat.SFltb x y = true → SpecFloat.SFltb y x = false.
Proof.
  unfold SpecFloat.SFltb, SpecFloat.SFcompare.
  destruct x as [[]|[]| |[] mx ex], y as [[]|[]| |[] my ey]; try done.
  all: change (Pos.compare_cont Eq) with Pos.compare.
  all: destruct (Z.compare_spec ex ey), (Z.compare_spec ey ex); try done; try lia.
  all: destruct (Pos.compare_spec mx my), (Pos.compare_spec my mx);
    simpl; try done; try lia.
Qed.

Lemma SFltb_trans x y z :
  SpecFloat.SFltb x y = true → SpecFloat.SFltb y z = true → SpecFloat.SFltb x z = true.
Proof.
  unfold SpecFloat.SFltb, SpecFloat.SFcompare.
  destruct x as [[]|[]| |[] mx ex], y as [[]|[]| |[] my ey], z as [[]|[]| |[] mz ez];
    try done.
  all: change (Pos.compare_cont Eq) with Pos.compare.
  all: destruct (Z.compare_spec ex ey), (Z.compare_spec ey ez), (Z.compare_spec ex ez);
    try done; try lia.
  all: destruct (Pos.compare_spec mx my), (Pos.compare_spec my mz), (Pos.compare_spec mx mz);
    simpl; try done; try lia.
Qed.

Lemma float_cmp_asym (x y : candidate float) :
  candidate_cmp x y = true → candidate_cmp y x = false.
Proof.
  unfold candidate_cmp. cbn [vgt float_value].
  rewrite !FloatAxioms.ltb_spec. apply SFltb_asym.
Qed.

Lemma float_cmp_trans (x y z : candidate float) :
  candidate_cmp x y = true → candidate_cmp y z = true → candidate_cmp x z = true.
Proof.
  unfold candidate_cmp. cbn [vgt float_value].
  rewrite !FloatAxioms.ltb_spec. intros Hxy Hyz. by eapply SFltb_trans.
Qed.

Lemma float_insert_by_sorted (c : candidate float) l :
  sorted_by candidate_cmp l → sorted_by candidate_cmp (insert_by candidate_cmp c l).
Proof.
  unfold sorted_by. induction l as [|d l IH]; intros Hs; cbn [insert_by].
  - by repeat constructor.
  - apply StronglySorted_cons in Hs as [Hd Hs].
    destruct (candidate_cmp c d) eqn:Hcd.
    + apply StronglySorted_cons. split; [|by apply StronglySorted_cons].
      constructor; [by apply float_cmp_asym|].
      eapply Forall_impl; [exact Hd|]. intros y Hy. cbv beta in Hy.
      destruct (candidate_cmp y c) eqn:Hyc; [|done].
      by rewrite (float_cmp_trans y c d) in Hy.
    + apply StronglySorted_cons. split; [|by apply IH].
      rewrite insert_by_perm. by constructor.
Qed.

Lemma float_insertion_sort_sorted (l : list (candidate float)) :
  sorted_by candidate_cmp (insertion_sort candidate_cmp l).
Proof.
  unfold insertion_sort. induction l as [|c l IH]; cbn [foldr]; [constructor|].
  by apply float_insert_by_sorted.
Qed.

#[export] Instance float_algorithm_spec : StdAlgorithmSpec float.
Proof.
  split; cbn [std_sort std_partial_sort float_algorithm].
  - apply insertion_sort_perm.
  - apply float_insertion_sort_sorted.
  - intros. apply insertion_sort_perm.
  - intros m l _. pose proof (float_insertion_sort_sorted l) as Hs.
    rewrite <- (take_drop m (insertion_sort candidate_cmp l)) in Hs.
    by apply StronglySorted_app_1_l in Hs.
  - intros m l x y _ Hx Hy. pose proof (float_insertion_sort_sorted l) as Hs.
    rewrite <- (take_drop m (insertion_sort candidate_cmp l)) in Hs.
    by apply (StronglySorted_app_1_elem_of _ _ _ x y) in Hs.
Qed.

(** ** The candidates of a row *)

Section Candidates.
Context {V : Type} `{!Value V} `{!StdAlgorithm V}.
Variables (n_row n_col : Z) (Ap Aj : list Z) (Ax : list V) (Bp Bj : list Z) (Bx : list V).
Hypothesis Hvalid : valid_input n_row n_col Ap Aj Ax Bp Bj Bx = true.

Local Abbreviation acc i :=
  (accumulate_row Ap Aj Ax Bp Bj Bx i (clean_next n_col) (clean_sums n_col)).
Local Abbreviation cands := (row_candidates n_col Ap Aj Ax Bp Bj Bx).
Local Abbreviation sel := (row_selected n_col Ap Aj Ax Bp Bj Bx).

Lemma elem_of_chain_candidates lower_bound (sums : list V) ks c :
  c ∈ chain_candidates lower_bound sums ks
  ↔ ∃ k, k ∈ ks ∧ vgt (aget vzero sums k) lower_bound = true
         ∧ c = Candidate k (aget vzero sums k).
Proof.
  unfold chain_candidates. rewrite list_elem_of_In, in_map_iff. split.
  - intros (k & <- & Hk). apply list_elem_of_In, list_elem_of_filter in Hk as [Hgt Hk].
    by exists k.
  - intros (k & Hk & Hgt & ->). exists k. split; [done|].
    apply list_elem_of_In, list_elem_of_filter. done.
Qed.

(** A candidate of row [i] is a reached column with its accumulated sum,
    which is above the threshold. *)
Lemma row_candidates_elem lower_bound i c :
  0 ≤ i < n_row → c ∈ cands lower_bound i →
  index c ∈ reached Ap Aj Bp Bj i
  ∧ value c = aget vzero (r_sums (acc i)) (index c)
  ∧ vgt (value c) lower_bound = true.
Proof.
  intros Hi Hc.
  destruct (row_candidates_chain n_row n_col Ap Aj Ax Bp Bj Bx Hvalid lower_bound i Hi)
    as (ks & _ & Hks & Heq).
  rewrite Heq in Hc. apply elem_of_chain_candidates in Hc as (k & Hk & Hgt & ->).
  simpl. split; [by apply Hks|done].
Qed.

Lemma row_selected_subset `{!StdAlgorithmSpec V} ntop lower_bound i c :
  0 ≤ ntop → c ∈ sel ntop lower_bound i → c ∈ cands lower_bound i.
Proof.
  intros Hntop Hc.
  destruct (select_topn_is_topn ntop (cands lower_bound i) Hntop) as (rest & Hperm & _).
  rewrite Hperm. apply elem_of_app. left.
  unfold row_selected in Hc. by destruct (select_topn _ _).
Qed.

Lemma reached_columns_perm i ks :
  0 ≤ i < n_row → NoDup ks → (∀ k, k ∈ ks ↔ k ∈ reached Ap Aj Bp Bj i) →
  ks ≡ₚ filter (λ k, k ∈ reached Ap Aj Bp Bj i) (seqZ 0 n_col).
Proof.
  intros Hi Hnd Hks. apply NoDup_Permutation; [done|apply NoDup_filter, NoDup_seqZ|].
  intros k. rewrite list_elem_of_filter, elem_of_seqZ, Hks. split; [|tauto].
  intros Hk. split; [done|].
  pose proof (valid_input_reached _ _ _ _ _ _ _ _ _ _ Hvalid Hi Hk). lia.
Qed.

Lemma filter_map_comm {A B} (P : B → Prop) `{∀ x, Decision (P x)} (f : A → B) (l : list A) :
  filter P (map f l) = map f (filter (λ x, P (f x)) l).
Proof.
  induction l as [|x l IH]; [done|]. simpl. rewrite !filter_cons.
  case_decide; simpl; by rewrite IH.
Qed.

Lemma candidates_ext lower_bound (s d : Z → V) (ks : list Z) :
  (∀ k, k ∈ ks → s k = d k) →
  map (λ k, Candidate k (s k)) (filter (λ k, vgt (s k) lower_bound = true) ks)
  = map (λ k, Candidate k (d k)) (filter (λ k, vgt (d k) lower_bound = true) ks).
Proof.
  induction ks as [|k ks IH]; intros Hext; [done|].
  assert (∀ k', k' ∈ ks → s k' = d k') as Hext' by (intros; apply Hext; by right).
  rewrite !filter_cons, (Hext k) by left.
  case_decide; simpl; rewrite IH by done; by rewrite ?(Hext k) by left.
Qed.

(** The candidates of row [i] are the reached columns with their
    accumulated sums, above the threshold. *)
Lemma row_candidates_stored lower_bound i :
  0 ≤ i < n_row →
  cands lower_bound i ≡ₚ stored_row n_col Ap Aj Ax Bp Bj Bx lower_bound i.
Proof.
  intros Hi.
  destruct (row_candidates_chain n_row n_col Ap Aj Ax Bp Bj Bx Hvalid lower_bound i Hi)
    as (ks & Hinv & Hks & ->).
  destruct (accumulate_row_inv n_row n_col Ap Aj Ax Bp Bj Bx Hvalid i Hi)
    as (_ & _ & _ & _ & Hsums).
  unfold chain_candidates, stored_row. rewrite filter_map_comm. cbn [value].
  rewrite (candidates_ext lower_bound _ (stored_sum Ap Aj Ax Bp Bj Bx i)).
  - apply Permutation_map, filter_Permutation, reached_columns_perm; [done| |done].
    apply Hinv.
  - intros k Hk. apply Hsums.
    apply Hks in Hk. pose proof (valid_input_reached _ _ _ _ _ _ _ _ _ _ Hvalid Hi Hk). lia.
Qed.

(** With exact arithmetic the accumulated sums are the entries of the dense
    product. *)
Lemma stored_row_product `{!ExactArith V} lower_bound i :
  0 ≤ i < n_row →
  stored_row n_col Ap Aj Ax Bp Bj Bx lower_bound i
  = product_row_reached n_col Ap Aj Ax Bp Bj Bx lower_bound i.
Proof.
  intros Hi. unfold stored_row, product_row_reached. f_equal.
  apply map_ext. intros k. f_equal. unfold stored_sum.
  rewrite fold_left_vadd, vadd_0_l. by eapply visits_dot.
Qed.

Lemma is_topn_perm n (cs cs' out : list (candidate V)) :
  cs ≡ₚ cs' → is_topn n cs out → is_topn n cs' out.
Proof.
  intros Hperm (rest & Hrest & Hlen & Hsorted & Hle). exists rest.
  rewrite <- Hperm. done.
Qed.

Lemma sorted_by_values (l : list (candidate V)) :
  sorted_by candidate_cmp l → non_increasing (map value l).
Proof.
  unfold sorted_by, non_increasing. induction 1 as [|c l Hs IH Hc]; simpl; constructor; [done|].
  apply Forall_forall. intros v Hv.
  apply list_elem_of_In, in_map_iff in Hv as (d & <- & Hd).
  rewrite Forall_forall in Hc. apply (Hc d). by apply list_elem_of_In.
Qed.

End Candidates.

Lemma elem_of_rows_upto {V} (sel : Z → list (candidate V)) (m : nat) c :
  c ∈ rows_upto sel m → ∃ i : nat, (i < m)%nat ∧ c ∈ sel (Z.of_nat i).
Proof.
  induction m as [|m IH]; simpl; intros Hc; [by apply elem_of_nil in Hc|].
  apply elem_of_app in Hc as [Hc|Hc].
  - destruct (IH Hc) as (i & Hi & Hin). exists i. split; [lia|done].
  - exists m. split; [lia|done].
Qed.

(** ** The row loop of [sparse_dot_only_minmax_topn_source] *)

Section Only.
Variables (n_col : Z) (Ap Aj Bp Bj : list Z).

Lemma filter_iff_in {A} (P Q : A → Prop)
    `{!∀ x, Decision (P x), !∀ x, Decision (Q x)} (l : list A) :
  (∀ x, x ∈ l → P x ↔ Q x) → filter P l = filter Q l.
Proof.
  induction l as [|a l IH]; intros HPQ; [done|].
  assert (filter P l = filter Q l) as Hl by (apply IH; intros; apply HPQ; by right).
  destruct (decide (P a)) as [HP|HP].
  - rewrite !filter_cons_True; [by rewrite Hl|by apply HPQ; [left|]|done].
  - rewrite !filter_cons_False; [done|rewrite <- HPQ by left; done|done].
Qed.

Lemma mark_row_reached i st :
  for_range (aget 0 Ap i) (aget 0 Ap (i + 1)) (mark_jj Aj Bp Bj) st
  = fold_left mark (reached Ap Aj Bp Bj i) st.
Proof.
  unfold reached, for_range, row_entries.
  rewrite fold_left_flat_map. apply fold_left_ext_in. intros s jj _.
  unfold mark_jj, for_range, row_entries. by rewrite fold_left_map.
Qed.

(** A run of [mark] clears the columns it meets and counts those it clears. *)
Lemma marks_spec (n : nat) (ks : list Z) :
  ∀ (u : list bool) (len : Z),
    (∀ k, k ∈ ks → 0 ≤ k < Z.of_nat n) →
    length u = n →
    ∃ u',
      fold_left mark ks (u, len)
      = (u', len + Z.of_nat (length (filter (λ k, aget false u k = true ∧ k ∈ ks)
                                       (seqZ 0 (Z.of_nat n)))))
      ∧ length u' = n
      ∧ ∀ k, aget false u' k = true ↔ aget false u k = true ∧ k ∉ ks.
Proof.
  induction ks as [|k ks IH]; intros u len Hrange Hlen.
  - exists u. simpl. split; [|split; [done|]].
    + rewrite (list_filter_iff _ (λ _, False)) by (intros x; rewrite elem_of_nil; tauto).
      replace (filter (λ _ : Z, False) (seqZ 0 (Z.of_nat n))) with (@nil Z).
      * simpl. f_equal. lia.
      * induction (seqZ 0 (Z.of_nat n)) as [|y l IHl]; [done|].
        by rewrite filter_cons_False by tauto.
    + intros x. rewrite elem_of_nil. tauto.
  - assert (0 ≤ k < Z.of_nat n) as Hk by (apply Hrange; left).
    assert (∀ x, x ∈ ks → 0 ≤ x < Z.of_nat n) as Hrange' by (intros; apply Hrange; by right).
    cbn [fold_left]. unfold mark at 2. cbn [fst snd].
    destruct (aget false u k) eqn:Huk.
    + destruct (IH (aset u k false) (len + 1) Hrange') as (u' & Hfold & Hlen' & Hu');
        [by rewrite length_aset|].
      exists u'. rewrite Hfold. split; [|split; [done|]].
      * f_equal. rewrite <- Z.add_assoc. f_equal.
        assert (filter (λ x, aget false u x = true ∧ x ∈ k :: ks) (seqZ 0 (Z.of_nat n))
                ≡ₚ k :: filter (λ x, aget false (aset u k false) x = true ∧ x ∈ ks)
                          (seqZ 0 (Z.of_nat n))) as Hperm;
          [|rewrite (Permutation_length Hperm); cbn [length]; lia].
        apply NoDup_Permutation.
        -- apply NoDup_filter, NoDup_seqZ.
        -- constructor; [|apply NoDup_filter, NoDup_seqZ].
           rewrite list_elem_of_filter, aget_aset_eq by lia. intros [[? _] _]. done.
        -- intros x. rewrite elem_of_cons, !list_elem_of_filter, elem_of_seqZ, elem_of_cons.
           destruct (decide (x = k)) as [->|Hne].
           ++ split; [by left|]. intros _. repeat split; (done || lia || by left).
           ++ rewrite aget_aset_ne by done. tauto.
      * intros x. rewrite Hu', not_elem_of_cons.
        destruct (decide (x = k)) as [->|Hne].
        -- rewrite aget_aset_eq by lia. split; [intros [? _]; done|tauto].
        -- rewrite aget_aset_ne by done. tauto.
    + destruct (IH u len Hrange' Hlen) as (u' & Hfold & Hlen' & Hu').
      exists u'. rewrite Hfold. split; [|split; [done|]].
      * do 4 f_equal. apply list_filter_iff. intros x. rewrite elem_of_cons.
        split; [tauto|]. intros [Hx [->|?]]; [congruence|tauto].
      * intros x. rewrite Hu', not_elem_of_cons. split; [|tauto].
        intros [Hx ?]. repeat split; try done. intros ->. congruence.
Qed.

Lemma reached_before_S (m : nat) :
  reached_before Ap Aj Bp Bj (Z.of_nat (S m))
  = reached_before Ap Aj Bp Bj (Z.of_nat m) ++ reached Ap Aj Bp Bj (Z.of_nat m).
Proof.
  unfold reached_before. rewrite seqZ_S, flat_map_app. simpl. by rewrite app_nil_r.
Qed.

Variables (n_row : Z) (V : Type) (Ax Bx : list V).
Hypothesis Hvalid : valid_input n_row n_col Ap Aj Ax Bp Bj Bx = true.

(** Between rows, [unmarked] holds of the columns no row has reached yet,
    and [*minmax_ntop] is the largest number of columns a row was the first
    to reach. *)
Lemma only_rows_state (m : nat) :
  (m ≤ Z.to_nat n_row)%nat →
  ∃ u,
    for_range 0 (Z.of_nat m) (only_row Ap Aj Bp Bj)
      (OnlyState (replicate (Z.to_nat n_col) true) 0)
    = OnlyState u (max_over (row_width_new n_col Ap Aj Bp Bj) (Z.of_nat m))
    ∧ length u = Z.to_nat n_col
    ∧ ∀ k, 0 ≤ k < n_col →
        aget false u k = true ↔ k ∉ reached_before Ap Aj Bp Bj (Z.of_nat m).
Proof.
  pose proof (valid_input_n_col _ _ _ _ _ _ _ _ Hvalid) as Hcol.
  induction m as [|m IH]; intros Hm.
  - exists (replicate (Z.to_nat n_col) true). rewrite for_range_empty by lia.
    split; [done|]. split; [apply length_replicate|].
    intros k Hk. rewrite aget_replicate by lia.
    unfold reached_before. rewrite seqZ_nil by lia. simpl. rewrite elem_of_nil. tauto.
  - destruct IH as (u & Hstate & Hlen & Hu); [lia|].
    replace (Z.of_nat (S m)) with (Z.of_nat m + 1) by lia.
    rewrite for_range_snoc, Hstate by lia.
    unfold only_row. cbn [w_unmarked w_minmax_ntop]. rewrite mark_row_reached.
    destruct (marks_spec (Z.to_nat n_col) (reached Ap Aj Bp Bj (Z.of_nat m)) u 0)
      as (u' & Hfold & Hlen' & Hu'); [|done|].
    { intros k Hk.
      assert (0 ≤ Z.of_nat m < n_row) as Hi by lia.
      pose proof (valid_input_reached _ _ _ _ _ _ _ _ _ _ Hvalid Hi Hk). lia. }
    rewrite Hfold. exists u'. split; [|split; [done|]].
    + f_equal. replace (Z.of_nat m + 1) with (Z.of_nat (S m)) by lia.
      rewrite max_over_S.
      assert (0 + Z.of_nat
                (length (filter (λ k, aget false u k = true
                                      ∧ k ∈ reached Ap Aj Bp Bj (Z.of_nat m))
                           (seqZ 0 (Z.of_nat (Z.to_nat n_col)))))
              = row_width_new n_col Ap Aj Bp Bj (Z.of_nat m)) as ->.
      { unfold row_width_new. rewrite Z2Nat.id by lia. rewrite Z.add_0_l. do 2 f_equal.
        apply filter_iff_in.
        intros k Hk. apply elem_of_seqZ in Hk. rewrite Hu by lia. tauto. }
      destruct (Z.gtb_spec (row_width_new n_col Ap Aj Bp Bj (Z.of_nat m))
                  (max_over (row_width_new n_col Ap Aj Bp Bj) (Z.of_nat m))); lia.
    + intros k Hk. replace (Z.of_nat m + 1) with (Z.of_nat (S m)) by lia.
      rewrite Hu', Hu, reached_before_S, elem_of_app by done. tauto.
Qed.

End Only.

(** ** The claims *)

Lemma topn_results_eq {V} `{!Value V} `{!StdAlgorithm V} n_row n_col
    Ap Aj (Ax : list V) Bp Bj Bx ntop lower_bound Cp Cj Cx C :
  topn_results n_row n_col Ap Aj Ax Bp Bj Bx ntop lower_bound Cp Cj Cx C →
  C = sparse_dot_topn_source n_row n_col Ap Aj Ax Bp Bj Bx ntop lower_bound Cp Cj Cx.
Proof. intros [->| ->]; [done|]. by rewrite plus_result_eq. Qed.

(** C4: [sparse_dot_plus_minmax_topn_source] writes the same output CSR
    triple [(Cp, Cj, Cx)] as [sparse_dot_topn_source] on the same arguments;
    the row loops of the two pass through the same states, the additional
    [*minmax_ntop] apart. *)
Theorem plus_minmax_writes_the_same_csr {V} `{!Value V} `{!StdAlgorithm V}
    n_row n_col Ap Aj (Ax : list V) Bp Bj Bx ntop lower_bound Cp Cj Cx :
  (sparse_dot_plus_minmax_topn_source n_row n_col Ap Aj Ax Bp Bj Bx
     ntop lower_bound Cp Cj Cx).1
  = sparse_dot_topn_source n_row n_col Ap Aj Ax Bp Bj Bx ntop lower_bound Cp Cj Cx
  ∧ ∀ m, forget (plus_rows n_col Ap Aj Ax Bp Bj Bx ntop lower_bound Cp Cj Cx m)
         = topn_rows n_col Ap Aj Ax Bp Bj Bx ntop lower_bound Cp Cj Cx m.
Proof.
  split; [|intros m; apply plus_rows_forget].
  unfold sparse_dot_plus_minmax_topn_source, sparse_dot_topn_source. cbn [fst].
  rewrite <- plus_rows_forget. done.
Qed.

(** C6: for a valid input with [ntop >= 0], the row pointers written by
    [sparse_dot_topn_source] and by [sparse_dot_plus_minmax_topn_source]
    satisfy [Cp[0] = 0], are non-decreasing over all [n_row + 1] entries, and
    [Cp[i+1] - Cp[i] <= ntop] for every row [i]. *)
Theorem row_pointers_grow_by_at_most_ntop {V} `{!Value V} `{!StdAlgorithm V}
    n_row n_col Ap Aj (Ax : list V) Bp Bj Bx ntop lower_bound Cp Cj Cx C :
  valid_input n_row n_col Ap Aj Ax Bp Bj Bx = true →
  0 ≤ ntop →
  enough_capacity n_row n_col Ap Aj Ax Bp Bj Bx ntop lower_bound Cp Cj Cx = true →
  topn_results n_row n_col Ap Aj Ax Bp Bj Bx ntop lower_bound Cp Cj Cx C →
  aget 0 (csr_p C) 0 = 0
  ∧ (∀ i j, 0 ≤ i ≤ j → j ≤ n_row → aget 0 (csr_p C) i ≤ aget 0 (csr_p C) j)
  ∧ (∀ i, 0 ≤ i < n_row → aget 0 (csr_p C) (i + 1) - aget 0 (csr_p C) i ≤ ntop).
Proof.
  intros Hvalid Hntop Hcap HC. apply topn_results_eq in HC as ->.
  assert (∀ i, 0 ≤ i ≤ n_row →
            aget 0 (csr_p (sparse_dot_topn_source n_row n_col Ap Aj Ax Bp Bj Bx
                             ntop lower_bound Cp Cj Cx)) i
            = row_offset (row_len n_col Ap Aj Ax Bp Bj Bx ntop lower_bound) (Z.to_nat i))
    as HCp.
  { intros i Hi.
    rewrite <- (result_Cp n_row n_col Ap Aj Ax Bp Bj Bx ntop lower_bound Cp Cj Cx
                  Hvalid Hntop Hcap (Z.to_nat i)) by lia.
    f_equal. lia. }
  pose proof (valid_input_n_row n_row n_col Ap Aj Ax Bp Bj Bx Hvalid) as Hn.
  split; [|split].
  - by rewrite HCp by lia.
  - intros i j Hij Hj. rewrite !HCp by lia.
    apply row_offset_mono; [done|lia].
  - intros i Hi. rewrite !HCp by lia.
    replace (Z.to_nat (i + 1)) with (S (Z.to_nat i)) by lia.
    pose proof (row_offset_step n_col Ap Aj Ax Bp Bj Bx ntop lower_bound Hntop
                  (Z.to_nat i)).
    lia.
Qed.

(** C5: for a valid input, in every output row of [sparse_dot_topn_source]
    and of [sparse_dot_plus_minmax_topn_source] the written values
    [Cx[Cp[i] .. Cp[i+1])] are non-increasing: no value is greater than one
    before it. *)
Theorem output_row_values_non_increasing {V} `{!Value V} `{!StdAlgorithm V}
    `{!StdAlgorithmSpec V}
    n_row n_col Ap Aj (Ax : list V) Bp Bj Bx ntop lower_bound Cp Cj Cx C i :
  valid_input n_row n_col Ap Aj Ax Bp Bj Bx = true →
  0 ≤ ntop →
  enough_capacity n_row n_col Ap Aj Ax Bp Bj Bx ntop lower_bound Cp Cj Cx = true →
  topn_results n_row n_col Ap Aj Ax Bp Bj Bx ntop lower_bound Cp Cj Cx C →
  0 ≤ i < n_row →
  non_increasing (slice (csr_x C) (aget 0 (csr_p C) i) (aget 0 (csr_p C) (i + 1))).
Proof.
  intros Hvalid Hntop Hcap HC Hi. apply topn_results_eq in HC as ->.
  destruct (output_slices n_row n_col Ap Aj Ax Bp Bj Bx ntop lower_bound Cp Cj Cx
              Hvalid Hntop Hcap i Hi) as [_ ->].
  apply sorted_by_values.
  destruct (select_topn_is_topn ntop
              (row_candidates n_col Ap Aj Ax Bp Bj Bx lower_bound i) Hntop)
    as (rest & _ & _ & Hsorted & _).
  unfold row_selected. by destruct (select_topn _ _).
Qed.

(** C7: for a valid input, every value that [sparse_dot_topn_source] or
    [sparse_dot_plus_minmax_topn_source] writes into [Cx] (the entries below
    the final [nnz = Cp[n_row]]) is greater than [lower_bound]; in
    particular, [>] being irreflexive, [lower_bound] itself is never
    written. *)
Theorem written_values_above_lower_bound {V} `{!Value V} `{!StdAlgorithm V}
    `{!StdAlgorithmSpec V}
    n_row n_col Ap Aj (Ax : list V) Bp Bj Bx ntop lower_bound Cp Cj Cx C :
  valid_input n_row n_col Ap Aj Ax Bp Bj Bx = true →
  0 ≤ ntop →
  enough_capacity n_row n_col Ap Aj Ax Bp Bj Bx ntop lower_bound Cp Cj Cx = true →
  topn_results n_row n_col Ap Aj Ax Bp Bj Bx ntop lower_bound Cp Cj Cx C →
  (∀ x, x ∈ take (Z.to_nat (aget 0 (csr_p C) n_row)) (csr_x C) →
        vgt x lower_bound = true)
  ∧ (vgt lower_bound lower_bound = false →
     lower_bound ∉ take (Z.to_nat (aget 0 (csr_p C) n_row)) (csr_x C)).
Proof.
  intros Hvalid Hntop Hcap HC. apply topn_results_eq in HC as ->.
  assert (∀ x, x ∈ take (Z.to_nat (aget 0 (csr_p
            (sparse_dot_topn_source n_row n_col Ap Aj Ax Bp Bj Bx
               ntop lower_bound Cp Cj Cx)) n_row))
            (csr_x (sparse_dot_topn_source n_row n_col Ap Aj Ax Bp Bj Bx
                      ntop lower_bound Cp Cj Cx)) →
          vgt x lower_bound = true) as Habove.
  { intros x Hx.
    rewrite (result_written n_row n_col Ap Aj Ax Bp Bj Bx ntop lower_bound Cp Cj Cx
               Hvalid Hntop Hcap) in Hx.
    apply list_elem_of_In, in_map_iff in Hx as (c & <- & Hc).
    apply list_elem_of_In, elem_of_rows_upto in Hc as (i & Hi & Hc).
    eapply row_selected_subset in Hc; [|done..].
    eapply row_candidates_elem in Hc; [|done|lia]. apply Hc. }
  split; [done|]. intros Hirr Hin. apply Habove in Hin. congruence.
Qed.

(** C8: for a valid input, at the start of each row's processing and after
    the last row, every entry of [sums] is 0 and every entry of [next] is
    the sentinel -1, in [sparse_dot_topn_source] and in
    [sparse_dot_plus_minmax_topn_source]; the finalization loop that
    restores them for a row makes as many rounds as the row reaches
    columns. *)
Theorem scratch_arrays_clean_between_rows {V} `{!Value V} `{!StdAlgorithm V}
    n_row n_col Ap Aj (Ax : list V) Bp Bj Bx ntop lower_bound Cp Cj Cx m :
  valid_input n_row n_col Ap Aj Ax Bp Bj Bx = true →
  0 ≤ m ≤ n_row →
  let s := topn_rows n_col Ap Aj Ax Bp Bj Bx ntop lower_bound Cp Cj Cx m in
  let p := plus_rows n_col Ap Aj Ax Bp Bj Bx ntop lower_bound Cp Cj Cx m in
  (s_next s = replicate (Z.to_nat n_col) (-1)
   ∧ s_sums s = replicate (Z.to_nat n_col) vzero)
  ∧ (p_next p = replicate (Z.to_nat n_col) (-1)
     ∧ p_sums p = replicate (Z.to_nat n_col) vzero)
  ∧ (m < n_row →
     r_length (accumulate_row Ap Aj Ax Bp Bj Bx m (s_next s) (s_sums s))
     = row_width n_col Ap Aj Bp Bj m
     ∧ r_length (accumulate_row Ap Aj Ax Bp Bj Bx m (p_next p) (p_sums p))
       = row_width n_col Ap Aj Bp Bj m).
Proof.
  intros Hvalid Hm s p.
  destruct (topn_rows_clean n_row n_col Ap Aj Ax Bp Bj Bx ntop lower_bound Cp Cj Cx
              Hvalid (Z.to_nat m)) as (Hn & Hs & _); [lia|].
  destruct (plus_rows_clean n_row n_col Ap Aj Ax Bp Bj Bx ntop lower_bound Cp Cj Cx
              Hvalid (Z.to_nat m)) as (Hpn & Hps & _); [lia|].
  rewrite Z2Nat.id in Hn, Hs, Hpn, Hps by lia. subst s p.
  rewrite Hn, Hs, Hpn, Hps. repeat split; try done.
  all: intros; eapply accumulate_row_length; [done|lia].
Qed.

(** C9, as amended: for a valid input, a column reached during the
    accumulation of a row is visited by the finalization of that row, which
    resets its [next] and [sums] entries; when its accumulated value is not
    greater than [lower_bound], no candidate is emitted for it and it is
    absent from the output row. *)
Theorem column_not_above_threshold_is_reset_and_not_emitted {V} `{!Value V}
    `{!StdAlgorithm V} `{!StdAlgorithmSpec V}
    n_row n_col Ap Aj (Ax : list V) Bp Bj Bx ntop lower_bound Cp Cj Cx i k :
  valid_input n_row n_col Ap Aj Ax Bp Bj Bx = true →
  0 ≤ ntop →
  enough_capacity n_row n_col Ap Aj Ax Bp Bj Bx ntop lower_bound Cp Cj Cx = true →
  0 ≤ i < n_row →
  k ∈ reached Ap Aj Bp Bj i →
  let s := topn_rows n_col Ap Aj Ax Bp Bj Bx ntop lower_bound Cp Cj Cx i in
  let acc := accumulate_row Ap Aj Ax Bp Bj Bx i (s_next s) (s_sums s) in
  let fin := finalize_row lower_bound acc (s_candidates s) in
  aget 0 (r_next acc) k ≠ -1
  ∧ aget 0 (f_next fin) k = -1
  ∧ aget vzero (f_sums fin) k = vzero
  ∧ (vgt (aget vzero (r_sums acc) k) lower_bound = false →
     k ∉ map index
           (output_row
              (sparse_dot_topn_source n_row n_col Ap Aj Ax Bp Bj Bx
                 ntop lower_bound Cp Cj Cx) i)).
Proof.
  intros Hvalid Hntop Hcap Hi Hk s acc fin.
  destruct (topn_rows_clean n_row n_col Ap Aj Ax Bp Bj Bx ntop lower_bound Cp Cj Cx
              Hvalid (Z.to_nat i)) as (Hn & Hs & Hc); [lia|].
  rewrite Z2Nat.id in Hn, Hs, Hc by lia. subst fin acc s. rewrite Hn, Hs, Hc.
  pose proof (valid_input_reached _ _ _ _ _ _ _ _ _ _ Hvalid Hi Hk) as Hrange.
  destruct (finalize_row_clean n_row n_col Ap Aj Ax Bp Bj Bx Hvalid lower_bound i [] Hi)
    as (ks & Hinv & Hks & Hfin).
  cbv zeta in Hfin. rewrite Hfin. cbn [f_next f_sums].
  split; [|split; [|split]].
  - eapply acc_inv_member; [exact Hinv|lia|]. by apply Hks.
  - apply aget_replicate. lia.
  - apply aget_replicate. lia.
  - intros Hgt Hin.
    rewrite (output_row_selected n_row n_col Ap Aj Ax Bp Bj Bx ntop lower_bound Cp Cj Cx
               Hvalid Hntop Hcap i Hi) in Hin.
    apply list_elem_of_In, in_map_iff in Hin as (c & <- & Hc').
    apply list_elem_of_In in Hc'.
    eapply row_selected_subset in Hc'; [|done..].
    eapply row_candidates_elem in Hc' as (_ & Hval & Hgt'); [|done..].
    rewrite Hval in Hgt'. congruence.
Qed.

(** C1, as amended: for a valid input, [ntop >= 0] and any [lower_bound],
    output row [i] of [sparse_dot_topn_source] is the [ntop] largest, in
    descending order of value, of the pairs [(k, s)] whose column [k] is
    reached through stored entries of row [i] and whose sum [s] is greater
    than [lower_bound]; all of them when fewer qualify.  The sum [s] of a
    column is the one the kernel accumulates: the products
    [A[i,j] * B[j,k]] of the stored pairs, added to 0 in storage order with
    the [+] and [*] of the values, of which no law is assumed.  A column
    that no stored entry of the row reaches is never emitted. *)
Theorem output_row_is_top_of_reached_sums {V} `{!Value V} `{!StdAlgorithm V}
    `{!StdAlgorithmSpec V}
    n_row n_col Ap Aj (Ax : list V) Bp Bj Bx ntop lower_bound Cp Cj Cx i :
  valid_input n_row n_col Ap Aj Ax Bp Bj Bx = true →
  0 ≤ ntop →
  enough_capacity n_row n_col Ap Aj Ax Bp Bj Bx ntop lower_bound Cp Cj Cx = true →
  0 ≤ i < n_row →
  is_topn (Z.to_nat ntop)
    (stored_row n_col Ap Aj Ax Bp Bj Bx lower_bound i)
    (output_row
       (sparse_dot_topn_source n_row n_col Ap Aj Ax Bp Bj Bx ntop lower_bound Cp Cj Cx) i)
  ∧ ∀ c,
      c ∈ output_row
            (sparse_dot_topn_source n_row n_col Ap Aj Ax Bp Bj Bx
               ntop lower_bound Cp Cj Cx) i →
      index c ∈ reached Ap Aj Bp Bj i
      ∧ value c = stored_sum Ap Aj Ax Bp Bj Bx i (index c)
      ∧ vgt (value c) lower_bound = true.
Proof.
  intros Hvalid Hntop Hcap Hi.
  rewrite (output_row_selected n_row n_col Ap Aj Ax Bp Bj Bx ntop lower_bound Cp Cj Cx
             Hvalid Hntop Hcap i Hi).
  split.
  - eapply is_topn_perm; [by eapply row_candidates_stored|].
    pose proof (select_topn_is_topn ntop
                  (row_candidates n_col Ap Aj Ax Bp Bj Bx lower_bound i) Hntop) as Htop.
    unfold row_selected. by destruct (select_topn _ _).
  - intros c Hc.
    eapply row_selected_subset in Hc; [|done..].
    eapply row_candidates_elem in Hc as (Hreach & Hval & Hgt); [|done..].
    split; [done|]. split; [|done].
    destruct (accumulate_row_inv n_row n_col Ap Aj Ax Bp Bj Bx Hvalid i Hi)
      as (ks & _ & _ & _ & Hsums).
    rewrite Hval. apply Hsums.
    pose proof (valid_input_reached _ _ _ _ _ _ _ _ _ _ Hvalid Hi Hreach). lia.
Qed.

(** X13: without any law of arithmetic, output row [i] is the [ntop]
    largest of the reached columns paired with their sums as the kernel
    accumulates them, in storage order. *)
Theorem output_row_is_top_of_stored_sums {V} `{!Value V} `{!StdAlgorithm V}
    `{!StdAlgorithmSpec V}
    n_row n_col Ap Aj (Ax : list V) Bp Bj Bx ntop lower_bound Cp Cj Cx i :
  valid_input n_row n_col Ap Aj Ax Bp Bj Bx = true →
  0 ≤ ntop →
  enough_capacity n_row n_col Ap Aj Ax Bp Bj Bx ntop lower_bound Cp Cj Cx = true →
  0 ≤ i < n_row →
  is_topn (Z.to_nat ntop)
    (stored_row n_col Ap Aj Ax Bp Bj Bx lower_bound i)
    (output_row
       (sparse_dot_topn_source n_row n_col Ap Aj Ax Bp Bj Bx ntop lower_bound Cp Cj Cx) i).
Proof.
  intros Hvalid Hntop Hcap Hi.
  rewrite (output_row_selected n_row n_col Ap Aj Ax Bp Bj Bx ntop lower_bound Cp Cj Cx
             Hvalid Hntop Hcap i Hi).
  eapply is_topn_perm; [by eapply row_candidates_stored|].
  pose proof (select_topn_is_topn ntop
                (row_candidates n_col Ap Aj Ax Bp Bj Bx lower_bound i) Hntop) as Htop.
  unfold row_selected. by destruct (select_topn _ _).
Qed.

(** C2, as amended: for a valid input, the [minmax_ntop] stored by
    [sparse_dot_plus_minmax_topn_source] is the maximum, over the rows [i],
    of the number of distinct columns reached through stored entries of row
    [i], whatever their sums and the threshold. *)
Theorem plus_minmax_is_max_reached_columns {V} `{!Value V} `{!StdAlgorithm V}
    n_row n_col Ap Aj (Ax : list V) Bp Bj Bx ntop lower_bound Cp Cj Cx :
  valid_input n_row n_col Ap Aj Ax Bp Bj Bx = true →
  (sparse_dot_plus_minmax_topn_source n_row n_col Ap Aj Ax Bp Bj Bx
     ntop lower_bound Cp Cj Cx).2
  = max_over (row_width n_col Ap Aj Bp Bj) n_row.
Proof.
  intros Hvalid. rewrite plus_result_eq. cbn [snd].
  pose proof (valid_input_n_row n_row n_col Ap Aj Ax Bp Bj Bx Hvalid) as Hn.
  pose proof (plus_rows_minmax n_row n_col Ap Aj Ax Bp Bj Bx ntop lower_bound Cp Cj Cx
                Hvalid (Z.to_nat n_row)) as H.
  rewrite Z2Nat.id in H by done. apply H. lia.
Qed.

(** ** Where the code departs from the claims *)

(** C1 as stated fails: with [A = [[1]]], [B = [[1, 0]]] (the zero not
    stored), [ntop = 2] and [lower_bound = -1], both columns of the product
    row [(1, 0)] are above the threshold, but the kernel emits only the
    reached column 0. *)
Lemma output_row_misses_unreached_columns :
  valid_input 1 2 [0; 1] [0] [1] [0; 1] [0] [1] = true
  ∧ enough_capacity 1 2 [0; 1] [0] [1] [0; 1] [0] [1] 2 (-1) [0; 0] [0; 0] [0; 0] = true
  ∧ ¬ is_topn 2
        (product_row 2 [0; 1] [0] [1] [0; 1] [0] [1] (-1) 0)
        (output_row
           (sparse_dot_topn_source 1 2 [0; 1] [0] [1] [0; 1] [0] [1] 2 (-1)
              [0; 0] [0; 0] [0; 0]) 0).
Proof.
  split; [reflexivity|]. split; [reflexivity|].
  intros (rest & _ & Hlen & _). vm_compute in Hlen. discriminate.
Qed.

(** At binary64 the sum of a column depends on the order of the additions.
    On [Binary64] the kernel adds from left to right.  Row 0 has the sums
    [2^53 + 4] and [2^53 + 2], both above the threshold [2^53], and keeps the
    larger, column 0; column 0 of row 1 stays at [2^53], and row 1 is empty.
    Added from right to left, as [dot] does, column 0 is [2^53] in row 0 and
    [2^53 + 2] in row 1: the rows above the threshold would be column 1
    alone, and column 0 alone. *)
Example binary64_sums_depend_on_order :
  valid_input Binary64.n_row Binary64.n_col Binary64.Ap Binary64.Aj Binary64.Ax
    Binary64.Bp Binary64.Bj Binary64.Bx = true
  ∧ Binary64.C = Csr [0; 1; 1] [0; 0] [9007199254740996; 0]%float
  ∧ stored_sum Binary64.Ap Binary64.Aj Binary64.Ax Binary64.Bp Binary64.Bj Binary64.Bx 0 0
    = 9007199254740996%float
  ∧ stored_sum Binary64.Ap Binary64.Aj Binary64.Ax Binary64.Bp Binary64.Bj Binary64.Bx 1 0
    = 9007199254740992%float
  ∧ dot Binary64.Ap Binary64.Aj Binary64.Ax Binary64.Bp Binary64.Bj Binary64.Bx 0 0
    = 9007199254740992%float
  ∧ dot Binary64.Ap Binary64.Aj Binary64.Ax Binary64.Bp Binary64.Bj Binary64.Bx 1 0
    = 9007199254740994%float
  ∧ output_row Binary64.C 0 = [Candidate 0 9007199254740996%float]
  ∧ output_row Binary64.C 1 = []
  ∧ product_row_reached Binary64.n_col Binary64.Ap Binary64.Aj Binary64.Ax
      Binary64.Bp Binary64.Bj Binary64.Bx Binary64.lower_bound 0
    = [Candidate 1 9007199254740994%float]
  ∧ product_row_reached Binary64.n_col Binary64.Ap Binary64.Aj Binary64.Ax
      Binary64.Bp Binary64.Bj Binary64.Bx Binary64.lower_bound 1
    = [Candidate 0 9007199254740994%float].
Proof. repeat split; vm_compute; reflexivity. Qed.

(** C2 as stated fails: with [A = [[1]]], [B = [[1]]] and [lower_bound = 5]
    no column of the product is above the threshold, but [minmax_ntop] is 1,
    the number of columns reached. *)
Lemma plus_minmax_counts_columns_below_threshold :
  valid_input 1 1 [0; 1] [0] [1] [0; 1] [0] [1] = true
  ∧ (sparse_dot_plus_minmax_topn_source 1 1 [0; 1] [0] [1] [0; 1] [0] [1] 1 5
       [0; 0] [0] [0]).2 = 1
  ∧ max_over (row_width_above 1 [0; 1] [0] [1] [0; 1] [0] [1] 5) 1 = 0.
Proof. repeat split; vm_compute; reflexivity. Qed.

(** C9 as stated fails: with [A = [[1]]], [B = [[0]]] (the zero stored) and
    [lower_bound = -1], column 0 accumulates exactly zero and is emitted. *)
Lemma zero_sum_emitted_under_negative_lower_bound :
  valid_input 1 1 [0; 1] [0] [1] [0; 1] [0] [0] = true
  ∧ enough_capacity 1 1 [0; 1] [0] [1] [0; 1] [0] [0] 1 (-1) [0; 0] [0] [0] = true
  ∧ 0 ∈ reached [0; 1] [0] [0; 1] [0] 0
  ∧ aget vzero
      (r_sums (accumulate_row [0; 1] [0] [1] [0; 1] [0] [0] 0
                 (clean_next 1) (clean_sums 1))) 0 = vzero
  ∧ 0 ∈ map index
          (output_row
             (sparse_dot_topn_source 1 1 [0; 1] [0] [1] [0; 1] [0] [0] 1 (-1)
                [0; 0] [0] [0]) 0).
Proof.
  split; [reflexivity|]. split; [reflexivity|].
  split; [vm_compute; left|]. split; [reflexivity|]. vm_compute. left.
Qed.

(** C3: [sparse_dot_only_minmax_topn_source] never resets [unmarked], so a
    column reached by an earlier row is not counted again.  With
    [A = [[1, 0], [0, 1]]] and [B = [[1, 0], [1, 1]]], row 1 reaches two
    columns, and the kernel returns 1. *)
Theorem only_minmax_undercounts_later_rows :
  valid_input 2 2 [0; 1; 2] [0; 1] [1; 1] [0; 1; 3] [0; 0; 1] [1; 1; 1] = true
  ∧ sparse_dot_only_minmax_topn_source 2 2 [0; 1; 2] [0; 1] [0; 1; 3] [0; 0; 1] = 1
  ∧ max_over (row_width 2 [0; 1; 2] [0; 1] [0; 1; 3] [0; 0; 1]) 2 = 2.
Proof. repeat split; vm_compute; reflexivity. Qed.

(** X12: what [sparse_dot_only_minmax_topn_source] stores on a valid
    input: the maximum, over the rows, of the number of columns a row is the
    first to reach. *)
Theorem only_minmax_is_max_new_columns {V} n_row n_col Ap Aj (Ax : list V) Bp Bj Bx :
  valid_input n_row n_col Ap Aj Ax Bp Bj Bx = true →
  sparse_dot_only_minmax_topn_source n_row n_col Ap Aj Bp Bj
  = max_over (row_width_new n_col Ap Aj Bp Bj) n_row.
Proof.
  intros Hvalid.
  pose proof (valid_input_n_row n_row n_col Ap Aj Ax Bp Bj Bx Hvalid) as Hn.
  destruct (only_rows_state n_col Ap Aj Bp Bj n_row V Ax Bx Hvalid (Z.to_nat n_row))
    as (u & Hstate & _); [lia|].
  rewrite Z2Nat.id in Hstate by done.
  unfold sparse_dot_only_minmax_topn_source. by rewrite Hstate.
Qed.

(** C10: on the same sparsity patterns the two entry points store different
    [minmax_ntop]: 2 for [sparse_dot_plus_minmax_topn_source], 1 for
    [sparse_dot_only_minmax_topn_source]. *)
Theorem plus_minmax_and_only_minmax_disagree :
  (sparse_dot_plus_minmax_topn_source 2 2 [0; 1; 2] [0; 1] [1; 1]
     [0; 1; 3] [0; 0; 1] [1; 1; 1] 2 0 [0; 0; 0] [0; 0; 0] [0; 0; 0]).2 = 2
  ∧ sparse_dot_only_minmax_topn_source 2 2 [0; 1; 2] [0; 1] [0; 1; 3] [0; 0; 1] = 1.
Proof. split; vm_compute; reflexivity. Qed.

(** ** The claims on the examples *)

Example example_output :
  Example.C = Csr [0; 2; 3] [1; 0; 1] [2; 1; 3].
Proof. reflexivity. Qed.

(** At binary64, row 0 of [Binary64]: of the two candidates
    [(1, 2^53 + 2)] and [(0, 2^53 + 4)], sums as the kernel accumulates them,
    the row keeps the larger. *)
Lemma binary64_row_is_top_of_reached_sums :
  is_topn 1
    (stored_row Binary64.n_col Binary64.Ap Binary64.Aj Binary64.Ax
       Binary64.Bp Binary64.Bj Binary64.Bx Binary64.lower_bound 0)
    (output_row Binary64.C 0)
  ∧ ∀ c,
      c ∈ output_row Binary64.C 0 →
      index c ∈ reached Binary64.Ap Binary64.Aj Binary64.Bp Binary64.Bj 0
      ∧ value c = stored_sum Binary64.Ap Binary64.Aj Binary64.Ax
                    Binary64.Bp Binary64.Bj Binary64.Bx 0 (index c)
      ∧ vgt (value c) Binary64.lower_bound = true.
Proof.
  apply (output_row_is_top_of_reached_sums (V:=float)
           Binary64.n_row Binary64.n_col Binary64.Ap Binary64.Aj Binary64.Ax
           Binary64.Bp Binary64.Bj Binary64.Bx Binary64.ntop Binary64.lower_bound
           Binary64.Cp Binary64.Cj Binary64.Cx 0);
    [reflexivity|unfold Binary64.ntop; lia|reflexivity|unfold Binary64.n_row; lia].
Defined.

Lemma example_minmax_is_max_reached_columns :
  (sparse_dot_plus_minmax_topn_source Example.n_row Example.n_col
     Example.Ap Example.Aj Example.Ax Example.Bp Example.Bj Example.Bx
     Example.ntop Example.lower_bound Example.Cp Example.Cj Example.Cx).2
  = max_over (row_width Example.n_col Example.Ap Example.Aj Example.Bp Example.Bj)
      Example.n_row.
Proof.
  apply (plus_minmax_is_max_reached_columns (V:=Z)
           Example.n_row Example.n_col Example.Ap Example.Aj Example.Ax
           Example.Bp Example.Bj Example.Bx Example.ntop Example.lower_bound
           Example.Cp Example.Cj Example.Cx).
  reflexivity.
Defined.

Lemma example_row_values_non_increasing :
  non_increasing
    (slice (csr_x Example.C) (aget 0 (csr_p Example.C) 0) (aget 0 (csr_p Example.C) (0 + 1))).
Proof.
  apply (output_row_values_non_increasing (V:=Z)
           Example.n_row Example.n_col Example.Ap Example.Aj Example.Ax
           Example.Bp Example.Bj Example.Bx Example.ntop Example.lower_bound
           Example.Cp Example.Cj Example.Cx Example.C 0);
    [reflexivity|unfold Example.ntop; lia|reflexivity|by left|unfold Example.n_row; lia].
Defined.

Lemma example_row_pointers :
  aget 0 (csr_p Example.C) 0 = 0
  ∧ (∀ i j, 0 ≤ i ≤ j → j ≤ Example.n_row →
       aget 0 (csr_p Example.C) i ≤ aget 0 (csr_p Example.C) j)
  ∧ (∀ i, 0 ≤ i < Example.n_row →
       aget 0 (csr_p Example.C) (i + 1) - aget 0 (csr_p Example.C) i ≤ Example.ntop).
Proof.
  apply (row_pointers_grow_by_at_most_ntop (V:=Z)
           Example.n_row Example.n_col Example.Ap Example.Aj Example.Ax
           Example.Bp Example.Bj Example.Bx Example.ntop Example.lower_bound
           Example.Cp Example.Cj Example.Cx Example.C);
    [reflexivity|unfold Example.ntop; lia|reflexivity|by left].
Defined.

Lemma example_written_values_above_lower_bound :
  (∀ x, x ∈ take (Z.to_nat (aget 0 (csr_p Example.C) Example.n_row)) (csr_x Example.C) →
        vgt x Example.lower_bound = true)
  ∧ (vgt Example.lower_bound Example.lower_bound = false →
     Example.lower_bound
     ∉ take (Z.to_nat (aget 0 (csr_p Example.C) Example.n_row)) (csr_x Example.C)).
Proof.
  apply (written_values_above_lower_bound (V:=Z)
           Example.n_row Example.n_col Example.Ap Example.Aj Example.Ax
           Example.Bp Example.Bj Example.Bx Example.ntop Example.lower_bound
           Example.Cp Example.Cj Example.Cx Example.C);
    [reflexivity|unfold Example.ntop; lia|reflexivity|by left].
Defined.

Lemma example_scratch_clean_after_first_row :
  let s := topn_rows Example.n_col Example.Ap Example.Aj Example.Ax
             Example.Bp Example.Bj Example.Bx Example.ntop Example.lower_bound
             Example.Cp Example.Cj Example.Cx 1 in
  let p := plus_rows Example.n_col Example.Ap Example.Aj Example.Ax
             Example.Bp Example.Bj Example.Bx Example.ntop Example.lower_bound
             Example.Cp Example.Cj Example.Cx 1 in
  (s_next s = replicate (Z.to_nat Example.n_col) (-1)
   ∧ s_sums s = replicate (Z.to_nat Example.n_col) vzero)
  ∧ (p_next p = replicate (Z.to_nat Example.n_col) (-1)
     ∧ p_sums p = replicate (Z.to_nat Example.n_col) vzero)
  ∧ (1 < Example.n_row →
     r_length (accumulate_row Example.Ap Example.Aj Example.Ax
                 Example.Bp Example.Bj Example.Bx 1 (s_next s) (s_sums s))
     = row_width Example.n_col Example.Ap Example.Aj Example.Bp Example.Bj 1
     ∧ r_length (accumulate_row Example.Ap Example.Aj Example.Ax
                   Example.Bp Example.Bj Example.Bx 1 (p_next p) (p_sums p))
       = row_width Example.n_col Example.Ap Example.Aj Example.Bp Example.Bj 1).
Proof.
  apply (scratch_arrays_clean_between_rows (V:=Z)
           Example.n_row Example.n_col Example.Ap Example.Aj Example.Ax
           Example.Bp Example.Bj Example.Bx Example.ntop Example.lower_bound
           Example.Cp Example.Cj Example.Cx 1);
    [reflexivity|unfold Example.n_row; lia].
Defined.

(** With the threshold raised to 2, column 0 of row 0 (sum 1) is reached,
    reset and not emitted. *)
Lemma example_column_below_threshold :
  let s := topn_rows Example.n_col Example.Ap Example.Aj Example.Ax
             Example.Bp Example.Bj Example.Bx Example.ntop 2
             Example.Cp Example.Cj Example.Cx 0 in
  let acc := accumulate_row Example.Ap Example.Aj Example.Ax
               Example.Bp Example.Bj Example.Bx 0 (s_next s) (s_sums s) in
  let fin := finalize_row 2 acc (s_candidates s) in
  aget 0 (r_next acc) 0 ≠ -1
  ∧ aget 0 (f_next fin) 0 = -1
  ∧ aget vzero (f_sums fin) 0 = vzero
  ∧ (vgt (aget vzero (r_sums acc) 0) 2 = false →
     0 ∉ map index
           (output_row
              (sparse_dot_topn_source Example.n_row Example.n_col
                 Example.Ap Example.Aj Example.Ax Example.Bp Example.Bj Example.Bx
                 Example.ntop 2 Example.Cp Example.Cj Example.Cx) 0)).
Proof.
  apply (column_not_above_threshold_is_reset_and_not_emitted (V:=Z)
           Example.n_row Example.n_col Example.Ap Example.Aj Example.Ax
           Example.Bp Example.Bj Example.Bx Example.ntop 2
           Example.Cp Example.Cj Example.Cx 0 0);
    [reflexivity|unfold Example.ntop; lia|reflexivity|unfold Example.n_row; lia|].
  vm_compute. left.
Defined.

(** ** Further properties of the three entry points *)

(** *** Maxima over the rows *)

Lemma fold_max_ge (l : list Z) a :
  a ≤ fold_left Z.max l a ∧ ∀ x, x ∈ l → x ≤ fold_left Z.max l a.
Proof.
  revert a. induction l as [|y l IH]; intros a; simpl.
  - split; [lia|]. intros x Hx. by apply elem_of_nil in Hx.
  - destruct (IH (Z.max a y)) as [Ha Hl]. split; [lia|].
    intros x Hx. apply elem_of_cons in Hx as [->|Hx]; [lia|auto].
Qed.

Lemma fold_max_le (l : list Z) a b :
  a ≤ b → (∀ x, x ∈ l → x ≤ b) → fold_left Z.max l a ≤ b.
Proof.
  revert a. induction l as [|y l IH]; intros a Ha Hl; simpl; [done|].
  apply IH.
  - assert (y ≤ b) by (apply Hl; left). lia.
  - intros x Hx. apply Hl. by right.
Qed.

Lemma max_over_nonneg f n : 0 ≤ max_over f n.
Proof. unfold max_over. by destruct (fold_max_ge (map f (seqZ 0 n)) 0). Qed.

Lemma max_over_ge f n i : 0 ≤ i < n → f i ≤ max_over f n.
Proof.
  intros Hi. unfold max_over.
  destruct (fold_max_ge (map f (seqZ 0 n)) 0) as [_ Hge]. apply Hge.
  apply list_elem_of_In, in_map, list_elem_of_In, elem_of_seqZ. lia.
Qed.

Lemma max_over_le f n b :
  0 ≤ b → (∀ i, 0 ≤ i < n → f i ≤ b) → max_over f n ≤ b.
Proof.
  intros Hb Hf. unfold max_over. apply fold_max_le; [done|].
  intros x Hx. apply list_elem_of_In, in_map_iff in Hx as (i & <- & Hi).
  apply Hf. apply list_elem_of_In, elem_of_seqZ in Hi. lia.
Qed.

Lemma length_filter_and {A} (P Q : A → Prop)
    `{!∀ x, Decision (P x), !∀ x, Decision (Q x)} (l : list A) :
  (length (filter (λ x, P x ∧ Q x) l) ≤ length (filter P l))%nat.
Proof.
  induction l as [|x l IH]; [done|]. rewrite !filter_cons.
  destruct (decide (P x ∧ Q x)) as [[HP _]|Hnot].
  - rewrite decide_True by done. simpl. lia.
  - destruct (decide (P x)); simpl; lia.
Qed.

Lemma row_width_new_le n_col Ap Aj Bp Bj i :
  row_width_new n_col Ap Aj Bp Bj i ≤ row_width n_col Ap Aj Bp Bj i.
Proof.
  unfold row_width_new, row_width.
  pose proof (length_filter_and (λ k, k ∈ reached Ap Aj Bp Bj i)
                (λ k, k ∉ reached_before Ap Aj Bp Bj i) (seqZ 0 n_col)).
  lia.
Qed.

Lemma row_width_new_first n_col Ap Aj Bp Bj :
  row_width_new n_col Ap Aj Bp Bj 0 = row_width n_col Ap Aj Bp Bj 0.
Proof.
  unfold row_width_new, row_width. do 2 f_equal.
  apply list_filter_iff. intros k.
  unfold reached_before. rewrite seqZ_nil by lia. simpl. rewrite elem_of_nil. tauto.
Qed.

(** *** [minmax_ntop] *)

(** X1: on a valid input, the [minmax_ntop] stored by
    [sparse_dot_plus_minmax_topn_source] lies between 0 and [n_col]. *)
Theorem plus_minmax_between_zero_and_n_col {V} `{!Value V} `{!StdAlgorithm V}
    n_row n_col Ap Aj (Ax : list V) Bp Bj Bx ntop lower_bound Cp Cj Cx :
  valid_input n_row n_col Ap Aj Ax Bp Bj Bx = true →
  0 ≤ (sparse_dot_plus_minmax_topn_source n_row n_col Ap Aj Ax Bp Bj Bx
         ntop lower_bound Cp Cj Cx).2 ≤ n_col.
Proof.
  intros Hvalid. rewrite plus_result_eq. cbn [snd].
  pose proof (valid_input_n_row _ _ _ _ _ _ _ _ Hvalid) as Hn.
  pose proof (valid_input_n_col _ _ _ _ _ _ _ _ Hvalid) as Hcol.
  pose proof (plus_rows_minmax n_row n_col Ap Aj Ax Bp Bj Bx ntop lower_bound Cp Cj Cx
                Hvalid (Z.to_nat n_row)) as H.
  rewrite Z2Nat.id in H by done. rewrite H by lia.
  split; [apply max_over_nonneg|].
  apply max_over_le; [done|]. intros i _. by apply row_width_le.
Qed.

(** X2: on a valid input, [sparse_dot_only_minmax_topn_source] never stores
    more than [sparse_dot_plus_minmax_topn_source]; it stores at least the
    number of columns the first row reaches, and the two agree when [A] has
    at most one row. *)
Theorem only_minmax_at_most_plus_minmax {V} `{!Value V} `{!StdAlgorithm V}
    n_row n_col Ap Aj (Ax : list V) Bp Bj Bx ntop lower_bound Cp Cj Cx :
  valid_input n_row n_col Ap Aj Ax Bp Bj Bx = true →
  let only := sparse_dot_only_minmax_topn_source n_row n_col Ap Aj Bp Bj in
  let plus := (sparse_dot_plus_minmax_topn_source n_row n_col Ap Aj Ax Bp Bj Bx
                 ntop lower_bound Cp Cj Cx).2 in
  only ≤ plus
  ∧ (0 < n_row → row_width n_col Ap Aj Bp Bj 0 ≤ only)
  ∧ (n_row ≤ 1 → only = plus).
Proof.
  intros Hvalid only plus.
  pose proof (valid_input_n_row _ _ _ _ _ _ _ _ Hvalid) as Hn.
  assert (only = max_over (row_width_new n_col Ap Aj Bp Bj) n_row) as Honly.
  { subst only.
    destruct (only_rows_state n_col Ap Aj Bp Bj n_row V Ax Bx Hvalid (Z.to_nat n_row))
      as (u & Hstate & _); [lia|].
    rewrite Z2Nat.id in Hstate by done.
    unfold sparse_dot_only_minmax_topn_source. by rewrite Hstate. }
  assert (plus = max_over (row_width n_col Ap Aj Bp Bj) n_row) as Hplus.
  { subst plus. rewrite plus_result_eq. cbn [snd].
    pose proof (plus_rows_minmax n_row n_col Ap Aj Ax Bp Bj Bx ntop lower_bound Cp Cj Cx
                  Hvalid (Z.to_nat n_row)) as H.
    rewrite Z2Nat.id in H by done. apply H. lia. }
  rewrite Honly, Hplus. split; [|split].
  - apply max_over_le; [apply max_over_nonneg|]. intros i Hi.
    etrans; [apply row_width_new_le|]. by apply max_over_ge.
  - intros Hpos. rewrite <- row_width_new_first. apply max_over_ge. lia.
  - intros Hle. destruct (decide (n_row = 0)) as [->|Hne]; [done|].
    replace n_row with (Z.of_nat 1) by lia.
    rewrite !max_over_S. cbn [Z.of_nat]. by rewrite row_width_new_first.
Qed.

(** *** What the row loop writes, whatever the input *)

Section Frame.
Context {V : Type} `{!Value V} `{!StdAlgorithm V}.
Variables (n_col : Z) (Ap Aj : list Z) (Ax : list V) (Bp Bj : list Z) (Bx : list V).
Variables (ntop : Z) (lower_bound : V) (Cp Cj : list Z) (Cx : list V).

Local Abbreviation rows := (topn_rows n_col Ap Aj Ax Bp Bj Bx ntop lower_bound Cp Cj Cx).

Lemma topn_row_Cp s i :
  s_Cp (topn_row Ap Aj Ax Bp Bj Bx ntop lower_bound s i)
  = aset (s_Cp s) (i + 1)
         (o_nnz (s_out (topn_row Ap Aj Ax Bp Bj Bx ntop lower_bound s i))).
Proof. unfold topn_row. by destruct (select_topn _ _). Qed.

(** Row [m] writes [Cp[m + 1]] and no other row pointer. *)
Lemma topn_rows_Cp_frame (m : nat) :
  length (s_Cp (rows (Z.of_nat m))) = length Cp
  ∧ ∀ i, Z.of_nat m < i → aget 0 (s_Cp (rows (Z.of_nat m))) i = aget 0 Cp i.
Proof.
  induction m as [|m [IHlen IH]].
  - unfold topn_rows. rewrite for_range_empty by lia. simpl. split.
    + apply length_aset.
    + intros i Hi. apply aget_aset_ne. lia.
  - rewrite rows_S, topn_row_Cp. split.
    + by rewrite length_aset.
    + intros i Hi. rewrite aget_aset_ne by lia. apply IH. lia.
Qed.

End Frame.

Section NtopZero.
Context {V : Type} `{!Value V} `{!StdAlgorithm V}.
Variables (n_col : Z) (Ap Aj : list Z) (Ax : list V) (Bp Bj : list Z) (Bx : list V).
Variables (lower_bound : V) (Cp Cj : list Z) (Cx : list V).

Local Abbreviation rows0 := (topn_rows n_col Ap Aj Ax Bp Bj Bx 0 lower_bound Cp Cj Cx).

Lemma topn_row_ntop_zero s i :
  s_out (topn_row Ap Aj Ax Bp Bj Bx 0 lower_bound s i) = s_out s.
Proof.
  unfold topn_row.
  pose proof (select_topn_len 0
    (f_candidates (finalize_row lower_bound
       (accumulate_row Ap Aj Ax Bp Bj Bx i (s_next s) (s_sums s)) (s_candidates s))))
    as Hlen.
  destruct (select_topn 0 _) as [cs len]. cbn [snd] in Hlen. cbn [s_out].
  unfold emit_row. apply for_range_empty. lia.
Qed.

Lemma topn_rows_ntop_zero (m : nat) :
  s_out (rows0 (Z.of_nat m)) = OutState Cj Cx 0
  ∧ ∀ i : nat, (i ≤ m)%nat → (i < length Cp)%nat →
      aget 0 (s_Cp (rows0 (Z.of_nat m))) (Z.of_nat i) = 0.
Proof.
  induction m as [|m [IHout IHCp]].
  - unfold topn_rows. rewrite for_range_empty by lia. simpl. split; [done|].
    intros i Hi Hlt. replace i with 0%nat by lia. apply aget_aset_eq. simpl. lia.
  - rewrite rows_S. split.
    + by rewrite topn_row_ntop_zero.
    + intros i Hi Hlt. rewrite topn_row_Cp, topn_row_ntop_zero, IHout. cbn [o_nnz].
      destruct (decide (i = S m)) as [->|Hne].
      * replace (Z.of_nat m + 1) with (Z.of_nat (S m)) by lia.
        apply aget_aset_eq.
        destruct (topn_rows_Cp_frame n_col Ap Aj Ax Bp Bj Bx 0 lower_bound Cp Cj Cx m)
          as [Hlen _].
        lia.
      * rewrite aget_aset_ne by lia. apply IHCp; lia.
Qed.

End NtopZero.

(** X3: with [ntop = 0], on a valid input, [sparse_dot_topn_source] and
    [sparse_dot_plus_minmax_topn_source] leave [Cj] and [Cx] as the caller
    passed them and write 0 into every row pointer [Cp[0 .. n_row]]: every
    output row is empty. *)
Theorem ntop_zero_gives_empty_rows {V} `{!Value V} `{!StdAlgorithm V}
    n_row n_col Ap Aj (Ax : list V) Bp Bj Bx lower_bound Cp Cj Cx C :
  valid_input n_row n_col Ap Aj Ax Bp Bj Bx = true →
  n_row + 1 ≤ Z.of_nat (length Cp) →
  topn_results n_row n_col Ap Aj Ax Bp Bj Bx 0 lower_bound Cp Cj Cx C →
  csr_j C = Cj
  ∧ csr_x C = Cx
  ∧ ∀ i, 0 ≤ i ≤ n_row → aget 0 (csr_p C) i = 0.
Proof.
  intros Hvalid HCp HC. apply topn_results_eq in HC as ->.
  pose proof (valid_input_n_row _ _ _ _ _ _ _ _ Hvalid) as Hn.
  destruct (topn_rows_ntop_zero n_col Ap Aj Ax Bp Bj Bx lower_bound Cp Cj Cx
              (Z.to_nat n_row)) as [Hout HCp0].
  rewrite Z2Nat.id in Hout, HCp0 by done.
  unfold sparse_dot_topn_source. cbn [csr_p csr_j csr_x]. rewrite Hout.
  split; [done|]. split; [done|].
  intros i Hi. replace i with (Z.of_nat (Z.to_nat i)) by lia. apply HCp0; lia.
Qed.

(** *** The size of the output *)

Section Sizes.
Context {V : Type} `{!Value V} `{!StdAlgorithm V}.
Variables (n_row n_col : Z) (Ap Aj : list Z) (Ax : list V) (Bp Bj : list Z) (Bx : list V).
Variables (ntop : Z) (lower_bound : V).
Hypothesis Hvalid : valid_input n_row n_col Ap Aj Ax Bp Bj Bx = true.
Hypothesis Hntop : 0 ≤ ntop.

Local Abbreviation cands := (row_candidates n_col Ap Aj Ax Bp Bj Bx lower_bound).
Local Abbreviation len := (row_len n_col Ap Aj Ax Bp Bj Bx ntop lower_bound).

(** A row has no more candidates than it reaches columns. *)
Lemma row_candidates_length i :
  0 ≤ i < n_row → Z.of_nat (length (cands i)) ≤ row_width n_col Ap Aj Bp Bj i.
Proof.
  intros Hi.
  destruct (row_candidates_chain n_row n_col Ap Aj Ax Bp Bj Bx Hvalid lower_bound i Hi)
    as (ks & Hinv & _ & ->).
  rewrite <- (accumulate_row_length n_row n_col Ap Aj Ax Bp Bj Bx Hvalid i Hi).
  rewrite (inv_length _ _ _ Hinv). unfold chain_candidates. rewrite length_map.
  pose proof (length_filter
    (λ k, vgt (aget vzero (r_sums (accumulate_row Ap Aj Ax Bp Bj Bx i
                 (clean_next n_col) (clean_sums n_col))) k) lower_bound = true) ks).
  lia.
Qed.

Lemma row_len_le i :
  0 ≤ i < n_row → len i ≤ Z.min ntop (row_width n_col Ap Aj Bp Bj i).
Proof.
  intros Hi. unfold row_len. rewrite select_topn_len.
  pose proof (row_candidates_length i Hi). lia.
Qed.

Lemma row_offset_le (m : nat) b :
  (m ≤ Z.to_nat n_row)%nat → 0 ≤ b →
  (∀ i, 0 ≤ i < n_row → row_width n_col Ap Aj Bp Bj i ≤ b) →
  row_offset len m ≤ Z.of_nat m * Z.min ntop b.
Proof.
  intros Hm Hb Hw. induction m as [|m IH]; [simpl; lia|].
  cbn [row_offset].
  assert (0 ≤ Z.of_nat m < n_row) as Hi by lia.
  pose proof (row_len_le (Z.of_nat m) Hi). pose proof (Hw (Z.of_nat m) Hi).
  specialize (IH ltac:(lia)). nia.
Qed.

End Sizes.

(** X4: on a valid input with [ntop >= 0], buffers of [n_row + 1] row
    pointers and [n_row * min (ntop, minmax_ntop)] columns and values are
    large enough, where [minmax_ntop] is what
    [sparse_dot_plus_minmax_topn_source] stores for the same matrices (with
    any cap, threshold and buffers); the kernel then emits at most that many
    entries. *)
Theorem capacity_from_ntop_and_minmax {V} `{!Value V} `{!StdAlgorithm V}
    n_row n_col Ap Aj (Ax : list V) Bp Bj Bx ntop lower_bound Cp Cj Cx
    ntop' lower_bound' Cp' Cj' Cx' :
  valid_input n_row n_col Ap Aj Ax Bp Bj Bx = true →
  0 ≤ ntop →
  let minmax_ntop :=
    (sparse_dot_plus_minmax_topn_source n_row n_col Ap Aj Ax Bp Bj Bx
       ntop' lower_bound' Cp' Cj' Cx').2 in
  n_row + 1 ≤ Z.of_nat (length Cp) →
  n_row * Z.min ntop minmax_ntop ≤ Z.of_nat (length Cj) →
  n_row * Z.min ntop minmax_ntop ≤ Z.of_nat (length Cx) →
  enough_capacity n_row n_col Ap Aj Ax Bp Bj Bx ntop lower_bound Cp Cj Cx = true
  ∧ aget 0 (csr_p (sparse_dot_topn_source n_row n_col Ap Aj Ax Bp Bj Bx
                     ntop lower_bound Cp Cj Cx)) n_row
    ≤ n_row * Z.min ntop minmax_ntop.
Proof.
  intros Hvalid Hntop minmax_ntop HCp HCj HCx.
  pose proof (valid_input_n_row _ _ _ _ _ _ _ _ Hvalid) as Hn.
  assert (minmax_ntop = max_over (row_width n_col Ap Aj Bp Bj) n_row) as Hmm.
  { subst minmax_ntop. rewrite plus_result_eq. cbn [snd].
    pose proof (plus_rows_minmax n_row n_col Ap Aj Ax Bp Bj Bx ntop' lower_bound'
                  Cp' Cj' Cx' Hvalid (Z.to_nat n_row)) as H.
    rewrite Z2Nat.id in H by done. apply H. lia. }
  assert (row_offset (row_len n_col Ap Aj Ax Bp Bj Bx ntop lower_bound) (Z.to_nat n_row)
          ≤ n_row * Z.min ntop minmax_ntop) as Hoff.
  { pose proof (row_offset_le n_row n_col Ap Aj Ax Bp Bj Bx ntop lower_bound Hvalid
                  (Z.to_nat n_row) minmax_ntop) as H.
    rewrite Z2Nat.id in H by done. apply H; [lia| |].
    - rewrite Hmm. apply max_over_nonneg.
    - intros i Hi. rewrite Hmm. by apply max_over_ge. }
  destruct (topn_rows_state n_row n_col Ap Aj Ax Bp Bj Bx ntop lower_bound Cp Cj Cx
              Hvalid Hntop (Z.to_nat n_row)) as (_ & _ & _ & Hnnz & _); [lia|].
  rewrite Z2Nat.id in Hnnz by done.
  assert (enough_capacity n_row n_col Ap Aj Ax Bp Bj Bx ntop lower_bound Cp Cj Cx = true)
    as Hcap.
  { unfold enough_capacity. rewrite Hnnz, !andb_true_iff, !Z.leb_le. lia. }
  split; [done|].
  pose proof (result_Cp n_row n_col Ap Aj Ax Bp Bj Bx ntop lower_bound Cp Cj Cx
                Hvalid Hntop Hcap (Z.to_nat n_row)) as H.
  rewrite Z2Nat.id in H by done. rewrite H by lia. done.
Qed.

(** X5: on a valid input, the kernel writes [Cp[0 .. n_row]] and the first
    [nnz = Cp[n_row]] entries of [Cj] and [Cx], and nothing else: the three
    buffers keep their lengths, the row pointers past [n_row] and the
    columns and values from [nnz] on are as the caller passed them. *)
Theorem buffers_untouched_past_the_output {V} `{!Value V} `{!StdAlgorithm V}
    `{!StdAlgorithmSpec V}
    n_row n_col Ap Aj (Ax : list V) Bp Bj Bx ntop lower_bound Cp Cj Cx C :
  valid_input n_row n_col Ap Aj Ax Bp Bj Bx = true →
  0 ≤ ntop →
  enough_capacity n_row n_col Ap Aj Ax Bp Bj Bx ntop lower_bound Cp Cj Cx = true →
  topn_results n_row n_col Ap Aj Ax Bp Bj Bx ntop lower_bound Cp Cj Cx C →
  let nnz := Z.to_nat (aget 0 (csr_p C) n_row) in
  (length (csr_p C) = length Cp
   ∧ length (csr_j C) = length Cj
   ∧ length (csr_x C) = length Cx)
  ∧ (∀ i, n_row < i → aget 0 (csr_p C) i = aget 0 Cp i)
  ∧ drop nnz (csr_j C) = drop nnz Cj
  ∧ drop nnz (csr_x C) = drop nnz Cx.
Proof.
  intros Hvalid Hntop Hcap HC nnz. apply topn_results_eq in HC. subst C.
  pose proof (valid_input_n_row _ _ _ _ _ _ _ _ Hvalid) as Hn.
  destruct (capacity_Cj_Cx n_row n_col Ap Aj Ax Bp Bj Bx ntop lower_bound Cp Cj Cx
              Hvalid Hntop Hcap) as [HCj HCx].
  assert (Z.of_nat (length (rows_upto (row_selected n_col Ap Aj Ax Bp Bj Bx ntop lower_bound)
                              (Z.to_nat n_row)))
          = row_offset (row_len n_col Ap Aj Ax Bp Bj Bx ntop lower_bound) (Z.to_nat n_row))
    as Hlen by (by apply rows_upto_length).
  assert (nnz = length (rows_upto (row_selected n_col Ap Aj Ax Bp Bj Bx ntop lower_bound)
                          (Z.to_nat n_row))) as Hnnz.
  { subst nnz.
    pose proof (result_Cp n_row n_col Ap Aj Ax Bp Bj Bx ntop lower_bound Cp Cj Cx
                  Hvalid Hntop Hcap (Z.to_nat n_row)) as H.
    rewrite Z2Nat.id in H by done. rewrite H by lia. lia. }
  destruct (topn_rows_Cp_frame n_col Ap Aj Ax Bp Bj Bx ntop lower_bound Cp Cj Cx
              (Z.to_nat n_row)) as [HlenCp HCp].
  rewrite Z2Nat.id in HlenCp, HCp by done.
  destruct (result_Cj_Cx n_row n_col Ap Aj Ax Bp Bj Bx ntop lower_bound Cp Cj Cx
              Hvalid Hntop Hcap) as [HCj' HCx'].
  rewrite Hnnz, HCj', HCx'.
  rewrite !drop_app_length' by (by rewrite length_map).
  rewrite !length_app, !length_map, !length_drop.
  repeat split; try done; lia.
Qed.

(** *** The content of the output rows *)

(** X6: on a valid input with [ntop >= 0], a row of [A] that reaches no
    column (it has no stored entry, or its entries meet only empty rows of
    [B]) gives an empty output row: [Cp[i + 1] = Cp[i]]. *)
Theorem row_reaching_nothing_is_empty {V} `{!Value V} `{!StdAlgorithm V}
    n_row n_col Ap Aj (Ax : list V) Bp Bj Bx ntop lower_bound Cp Cj Cx C i :
  valid_input n_row n_col Ap Aj Ax Bp Bj Bx = true →
  0 ≤ ntop →
  enough_capacity n_row n_col Ap Aj Ax Bp Bj Bx ntop lower_bound Cp Cj Cx = true →
  topn_results n_row n_col Ap Aj Ax Bp Bj Bx ntop lower_bound Cp Cj Cx C →
  0 ≤ i < n_row →
  reached Ap Aj Bp Bj i = [] →
  aget 0 (csr_p C) (i + 1) = aget 0 (csr_p C) i ∧ output_row C i = [].
Proof.
  intros Hvalid Hntop Hcap HC Hi Hreach. apply topn_results_eq in HC as ->.
  assert (aget 0 (csr_p (sparse_dot_topn_source n_row n_col Ap Aj Ax Bp Bj Bx
                           ntop lower_bound Cp Cj Cx)) (i + 1)
          = aget 0 (csr_p (sparse_dot_topn_source n_row n_col Ap Aj Ax Bp Bj Bx
                             ntop lower_bound Cp Cj Cx)) i) as Heq.
  { pose proof (result_Cp n_row n_col Ap Aj Ax Bp Bj Bx ntop lower_bound Cp Cj Cx
                  Hvalid Hntop Hcap (Z.to_nat i)) as Hlo.
    pose proof (result_Cp n_row n_col Ap Aj Ax Bp Bj Bx ntop lower_bound Cp Cj Cx
                  Hvalid Hntop Hcap (S (Z.to_nat i))) as Hhi.
    rewrite Z2Nat.id in Hlo by lia.
    replace (Z.of_nat (S (Z.to_nat i))) with (i + 1) in Hhi by lia.
    rewrite Hlo, Hhi by lia. cbn [row_offset]. rewrite Z2Nat.id by lia.
    pose proof (row_len_le n_row n_col Ap Aj Ax Bp Bj Bx ntop lower_bound Hvalid i Hi)
      as Hle.
    pose proof (row_len_bounds n_col Ap Aj Ax Bp Bj Bx ntop lower_bound Hntop i) as Hge.
    assert (row_width n_col Ap Aj Bp Bj i = 0) as Hw.
    { unfold row_width. rewrite Hreach.
      rewrite (list_filter_iff _ (λ _, False)) by (intros x; rewrite elem_of_nil; tauto).
      induction (seqZ 0 n_col) as [|y l IHl]; [done|].
      by rewrite filter_cons_False by tauto. }
    lia. }
  split; [done|].
  unfold output_row, slice. rewrite Heq, Z.sub_diag. done.
Qed.

Lemma chain_candidates_index {V} `{!Value V} lower_bound (sums : list V) ks :
  map index (chain_candidates lower_bound sums ks)
  = filter (λ k, vgt (aget vzero sums k) lower_bound = true) ks.
Proof. unfold chain_candidates. rewrite map_map. simpl. apply map_id. Qed.

(** X7: on a valid input with [ntop >= 0], the column indices written for
    an output row are pairwise distinct, lie in [0, n_col), and are columns
    the row reaches. *)
Theorem output_row_columns_distinct_and_in_range {V} `{!Value V} `{!StdAlgorithm V}
    `{!StdAlgorithmSpec V}
    n_row n_col Ap Aj (Ax : list V) Bp Bj Bx ntop lower_bound Cp Cj Cx C i :
  valid_input n_row n_col Ap Aj Ax Bp Bj Bx = true →
  0 ≤ ntop →
  enough_capacity n_row n_col Ap Aj Ax Bp Bj Bx ntop lower_bound Cp Cj Cx = true →
  topn_results n_row n_col Ap Aj Ax Bp Bj Bx ntop lower_bound Cp Cj Cx C →
  0 ≤ i < n_row →
  let columns := slice (csr_j C) (aget 0 (csr_p C) i) (aget 0 (csr_p C) (i + 1)) in
  NoDup columns
  ∧ ∀ k, k ∈ columns → 0 ≤ k < n_col ∧ k ∈ reached Ap Aj Bp Bj i.
Proof.
  intros Hvalid Hntop Hcap HC Hi columns. apply topn_results_eq in HC. subst C.
  destruct (output_slices n_row n_col Ap Aj Ax Bp Bj Bx ntop lower_bound Cp Cj Cx
              Hvalid Hntop Hcap i Hi) as [Hcols _].
  subst columns. rewrite Hcols. split.
  - rewrite row_selected_eq. unfold row_len.
    destruct (select_topn_is_topn ntop
                (row_candidates n_col Ap Aj Ax Bp Bj Bx lower_bound i) Hntop)
      as (rest & Hperm & _).
    apply (Permutation_map index) in Hperm. rewrite map_app in Hperm.
    assert (NoDup (map index (row_candidates n_col Ap Aj Ax Bp Bj Bx lower_bound i)))
      as Hnd.
    { destruct (row_candidates_chain n_row n_col Ap Aj Ax Bp Bj Bx Hvalid lower_bound i Hi)
        as (ks & Hinv & _ & ->).
      rewrite chain_candidates_index. apply NoDup_filter, Hinv. }
    rewrite Hperm in Hnd. by apply NoDup_app in Hnd as [Hnd _].
  - intros k Hk. apply list_elem_of_In, in_map_iff in Hk as (c & <- & Hc).
    apply list_elem_of_In in Hc.
    eapply row_selected_subset in Hc; [|done..].
    eapply row_candidates_elem in Hc as (Hreach & _); [|done..].
    split; [|done]. by eapply valid_input_reached.
Qed.

(** X8: on a valid input, when [ntop] is at least the [minmax_ntop] that
    [sparse_dot_plus_minmax_topn_source] stores for the same matrices, no
    output row is cut: row [i] holds every reached column whose accumulated
    sum is above [lower_bound], each once. *)
Theorem ntop_at_least_minmax_keeps_every_candidate {V} `{!Value V} `{!StdAlgorithm V}
    `{!StdAlgorithmSpec V}
    n_row n_col Ap Aj (Ax : list V) Bp Bj Bx ntop lower_bound Cp Cj Cx
    ntop' lower_bound' Cp' Cj' Cx' i :
  valid_input n_row n_col Ap Aj Ax Bp Bj Bx = true →
  enough_capacity n_row n_col Ap Aj Ax Bp Bj Bx ntop lower_bound Cp Cj Cx = true →
  (sparse_dot_plus_minmax_topn_source n_row n_col Ap Aj Ax Bp Bj Bx
     ntop' lower_bound' Cp' Cj' Cx').2 ≤ ntop →
  0 ≤ i < n_row →
  output_row
    (sparse_dot_topn_source n_row n_col Ap Aj Ax Bp Bj Bx ntop lower_bound Cp Cj Cx) i
  ≡ₚ stored_row n_col Ap Aj Ax Bp Bj Bx lower_bound i.
Proof.
  intros Hvalid Hcap Hmm Hi.
  pose proof (valid_input_n_row _ _ _ _ _ _ _ _ Hvalid) as Hn.
  rewrite plus_result_eq in Hmm. cbn [snd] in Hmm.
  pose proof (plus_rows_minmax n_row n_col Ap Aj Ax Bp Bj Bx ntop' lower_bound'
                Cp' Cj' Cx' Hvalid (Z.to_nat n_row)) as H.
  rewrite Z2Nat.id in H by done. rewrite H in Hmm by lia. clear H.
  pose proof (max_over_nonneg (row_width n_col Ap Aj Bp Bj) n_row) as H0.
  pose proof (max_over_ge (row_width n_col Ap Aj Bp Bj) n_row i Hi) as Hw.
  assert (0 ≤ ntop) as Hntop by lia.
  rewrite (output_row_selected n_row n_col Ap Aj Ax Bp Bj Bx ntop lower_bound Cp Cj Cx
             Hvalid Hntop Hcap i Hi).
  rewrite <- (row_candidates_stored n_row n_col Ap Aj Ax Bp Bj Bx Hvalid lower_bound i Hi).
  rewrite row_selected_eq. unfold row_len.
  destruct (select_topn_is_topn ntop
              (row_candidates n_col Ap Aj Ax Bp Bj Bx lower_bound i) Hntop)
    as (rest & Hperm & Hlen & _).
  pose proof (row_candidates_length n_row n_col Ap Aj Ax Bp Bj Bx lower_bound Hvalid i Hi)
    as Hc.
  pose proof (Permutation_length Hperm) as Hl. rewrite length_app in Hl.
  destruct rest as [|r rest]; [|simpl in Hl; lia].
  rewrite app_nil_r in Hperm. by symmetry.
Qed.

(** X9: on a valid input, when the accumulation loop of row [i] ends,
    whatever the rows before it left in the scratch arrays, [sums[k]] is,
    for every column [k] of the product, the sum of the products
    [A[i,j] * B[j,k]] of the stored pairs added to 0 one after the other in
    storage order; for a column the row does not reach it is still 0.  No
    law of arithmetic is assumed. *)
Theorem accumulated_sums_are_the_stored_sums {V} `{!Value V} `{!StdAlgorithm V}
    n_row n_col Ap Aj (Ax : list V) Bp Bj Bx ntop lower_bound Cp Cj Cx i k :
  valid_input n_row n_col Ap Aj Ax Bp Bj Bx = true →
  0 ≤ i < n_row →
  0 ≤ k < n_col →
  let s := topn_rows n_col Ap Aj Ax Bp Bj Bx ntop lower_bound Cp Cj Cx i in
  let acc := accumulate_row Ap Aj Ax Bp Bj Bx i (s_next s) (s_sums s) in
  aget vzero (r_sums acc) k = stored_sum Ap Aj Ax Bp Bj Bx i k
  ∧ (k ∉ reached Ap Aj Bp Bj i → aget vzero (r_sums acc) k = vzero).
Proof.
  intros Hvalid Hi Hk s acc.
  destruct (topn_rows_clean n_row n_col Ap Aj Ax Bp Bj Bx ntop lower_bound Cp Cj Cx
              Hvalid (Z.to_nat i)) as (Hn & Hs & _); [lia|].
  rewrite Z2Nat.id in Hn, Hs by lia. subst acc s. rewrite Hn, Hs.
  destruct (accumulate_row_inv n_row n_col Ap Aj Ax Bp Bj Bx Hvalid i Hi)
    as (ks & _ & _ & _ & Hsums).
  split; [by apply Hsums|].
  intros Hnot. rewrite Hsums by done. rewrite contributions_nil; [done|].
  by rewrite visits_columns.
Qed.

(** *** The output as a CSR matrix *)

Lemma aget_take {A} (d : A) (a : list A) (n : nat) i :
  0 ≤ i < Z.of_nat n → aget d (take n a) i = aget d a i.
Proof.
  intros Hi. rewrite !aget_lookup by lia. by rewrite lookup_take_lt by lia.
Qed.

Lemma nondecreasing_intro (p : list Z) :
  (∀ i : nat, (S i < length p)%nat → nth i p 0 ≤ nth (S i) p 0) →
  nondecreasing p = true.
Proof.
  induction p as [|a [|b p] IH]; intros Hstep; [done..|].
  cbn [nondecreasing]. apply andb_true_intro. split.
  - apply Z.leb_le. apply (Hstep 0%nat). simpl. lia.
  - apply IH. intros i Hi. apply (Hstep (S i)). simpl in *. lia.
Qed.

Section OutputCsr.
Context {V : Type} `{!Value V} `{!StdAlgorithm V} `{!StdAlgorithmSpec V}.
Variables (n_row n_col : Z) (Ap Aj : list Z) (Ax : list V) (Bp Bj : list Z) (Bx : list V).
Variables (ntop : Z) (lower_bound : V) (Cp Cj : list Z) (Cx : list V).
Hypothesis Hvalid : valid_input n_row n_col Ap Aj Ax Bp Bj Bx = true.
Hypothesis Hntop : 0 ≤ ntop.
Hypothesis Hcap :
  enough_capacity n_row n_col Ap Aj Ax Bp Bj Bx ntop lower_bound Cp Cj Cx = true.

Local Abbreviation len := (row_len n_col Ap Aj Ax Bp Bj Bx ntop lower_bound).
Local Abbreviation sel := (row_selected n_col Ap Aj Ax Bp Bj Bx ntop lower_bound).
Local Abbreviation result :=
  (sparse_dot_topn_source n_row n_col Ap Aj Ax Bp Bj Bx ntop lower_bound Cp Cj Cx).

(** The columns written are those of the rows selected, one after the other. *)
Lemma result_written_columns :
  take (Z.to_nat (aget 0 (csr_p result) n_row)) (csr_j result)
  = map index (rows_upto sel (Z.to_nat n_row)).
Proof.
  pose proof (valid_input_n_row _ _ _ _ _ _ _ _ Hvalid) as Hn.
  pose proof (result_Cp n_row n_col Ap Aj Ax Bp Bj Bx ntop lower_bound Cp Cj Cx
                Hvalid Hntop Hcap (Z.to_nat n_row)) as H.
  rewrite Z2Nat.id in H by done. rewrite H by lia.
  assert (Z.of_nat (length (rows_upto sel (Z.to_nat n_row)))
          = row_offset len (Z.to_nat n_row)) as Hoff by (by apply rows_upto_length).
  destruct (result_Cj_Cx n_row n_col Ap Aj Ax Bp Bj Bx ntop lower_bound Cp Cj Cx
              Hvalid Hntop Hcap) as [-> _].
  apply take_app_length'. rewrite length_map. lia.
Qed.

Lemma result_lengths :
  length (csr_p result) = length Cp
  ∧ length (csr_j result) = length Cj
  ∧ length (csr_x result) = length Cx.
Proof.
  pose proof (valid_input_n_row _ _ _ _ _ _ _ _ Hvalid) as Hn.
  destruct (capacity_Cj_Cx n_row n_col Ap Aj Ax Bp Bj Bx ntop lower_bound Cp Cj Cx
              Hvalid Hntop Hcap) as [HCj HCx].
  assert (Z.of_nat (length (rows_upto sel (Z.to_nat n_row)))
          = row_offset len (Z.to_nat n_row)) as Hoff by (by apply rows_upto_length).
  destruct (topn_rows_Cp_frame n_col Ap Aj Ax Bp Bj Bx ntop lower_bound Cp Cj Cx
              (Z.to_nat n_row)) as [HlenCp _].
  rewrite Z2Nat.id in HlenCp by done.
  destruct (result_Cj_Cx n_row n_col Ap Aj Ax Bp Bj Bx ntop lower_bound Cp Cj Cx
              Hvalid Hntop Hcap) as [-> ->].
  rewrite !length_app, !length_map, !length_drop. split; [done|]. lia.
Qed.

End OutputCsr.

(** X10: on a valid input with [ntop >= 0], the output, cut to what was
    written ([n_row + 1] row pointers, [nnz = Cp[n_row]] columns and
    values), is itself a valid CSR matrix of [n_row] rows and [n_col]
    columns. *)
Theorem output_is_a_valid_csr {V} `{!Value V} `{!StdAlgorithm V} `{!StdAlgorithmSpec V}
    n_row n_col Ap Aj (Ax : list V) Bp Bj Bx ntop lower_bound Cp Cj Cx C :
  valid_input n_row n_col Ap Aj Ax Bp Bj Bx = true →
  0 ≤ ntop →
  enough_capacity n_row n_col Ap Aj Ax Bp Bj Bx ntop lower_bound Cp Cj Cx = true →
  topn_results n_row n_col Ap Aj Ax Bp Bj Bx ntop lower_bound Cp Cj Cx C →
  let nnz := Z.to_nat (aget 0 (csr_p C) n_row) in
  valid_csr n_row n_col
    (take (Z.to_nat (n_row + 1)) (csr_p C))
    (take nnz (csr_j C))
    (length (take nnz (csr_x C))) = true.
Proof.
  intros Hvalid Hntop Hcap HC nnz. apply topn_results_eq in HC. subst C.
  pose proof (valid_input_n_row _ _ _ _ _ _ _ _ Hvalid) as Hn.
  pose proof (capacity_Cp _ _ _ _ _ _ _ _ _ _ _ _ _ Hcap) as HCp.
  destruct (result_lengths n_row n_col Ap Aj Ax Bp Bj Bx ntop lower_bound Cp Cj Cx
              Hvalid Hntop Hcap) as (Hlp & Hlj & Hlx).
  destruct (capacity_Cj_Cx n_row n_col Ap Aj Ax Bp Bj Bx ntop lower_bound Cp Cj Cx
              Hvalid Hntop Hcap) as [HCj HCx].
  assert (∀ i : nat, (i ≤ Z.to_nat n_row)%nat →
            aget 0 (csr_p (sparse_dot_topn_source n_row n_col Ap Aj Ax Bp Bj Bx
                             ntop lower_bound Cp Cj Cx)) (Z.of_nat i)
            = row_offset (row_len n_col Ap Aj Ax Bp Bj Bx ntop lower_bound) i) as Hp
    by (by apply result_Cp).
  assert (Z.of_nat nnz
          = row_offset (row_len n_col Ap Aj Ax Bp Bj Bx ntop lower_bound) (Z.to_nat n_row))
    as Hnnz.
  { subst nnz.
    assert (aget 0 (csr_p (sparse_dot_topn_source n_row n_col Ap Aj Ax Bp Bj Bx
                             ntop lower_bound Cp Cj Cx)) n_row
            = row_offset (row_len n_col Ap Aj Ax Bp Bj Bx ntop lower_bound)
                (Z.to_nat n_row)) as ->.
    { rewrite <- Hp by lia. f_equal. lia. }
    pose proof (row_offset_nonneg n_col Ap Aj Ax Bp Bj Bx ntop lower_bound Hntop
                  (Z.to_nat n_row)).
    lia. }
  unfold valid_csr. rewrite !andb_true_iff. repeat split.
  - by apply Z.leb_le.
  - apply Z.eqb_eq. rewrite length_take. lia.
  - apply Z.eqb_eq. rewrite aget_take by lia. apply (Hp 0%nat). lia.
  - apply nondecreasing_intro. intros i Hi. rewrite length_take in Hi.
    pose proof (aget_take 0 (csr_p (sparse_dot_topn_source n_row n_col Ap Aj Ax Bp Bj Bx
                               ntop lower_bound Cp Cj Cx)) (Z.to_nat (n_row + 1))) as Ht.
    pose proof (Ht (Z.of_nat i) ltac:(lia)) as Hi0.
    pose proof (Ht (Z.of_nat (S i)) ltac:(lia)) as Hi1.
    unfold aget in Hi0 at 1. unfold aget in Hi1 at 1.
    destruct (Z.ltb_spec (Z.of_nat i) 0); [lia|].
    destruct (Z.ltb_spec (Z.of_nat (S i)) 0); [lia|].
    rewrite Nat2Z.id in Hi0, Hi1. rewrite Hi0, Hi1, !Hp by lia.
    by apply row_offset_step.
  - apply Z.leb_le. rewrite aget_take by lia.
    rewrite length_take. subst nnz. lia.
  - apply Nat.eqb_eq. rewrite !length_take. lia.
  - apply forallb_forall. intros k Hk. subst nnz.
    rewrite (result_written_columns n_row n_col Ap Aj Ax Bp Bj Bx ntop lower_bound
               Cp Cj Cx Hvalid Hntop Hcap) in Hk.
    apply in_map_iff in Hk as (c & <- & Hc).
    apply list_elem_of_In, elem_of_rows_upto in Hc as (i & Hi & Hc).
    eapply row_selected_subset in Hc; [|done..].
    assert (0 ≤ Z.of_nat i < n_row) as Hi' by lia.
    eapply row_candidates_elem in Hc as (Hreach & _); [|done..].
    pose proof (valid_input_reached _ _ _ _ _ _ _ _ _ _ Hvalid Hi' Hreach).
    apply andb_true_intro. split; [apply Z.leb_le|apply Z.ltb_lt]; lia.
Qed.

(** *** Rows are independent of each other *)

Lemma visits_row_stored {V} `{!Value V} Ap Aj (Ax : list V) Bp Bj Bx i :
  visits Ap Aj Ax Bp Bj Bx i
  = flat_map
      (λ jv, map (λ kk, (aget 0 Bj kk, vmul jv.2 (aget vzero Bx kk)))
                 (row_entries Bp jv.1))
      (row_stored Ap Aj Ax i).
Proof.
  unfold visits, row_stored. induction (row_entries Ap i) as [|jj l IH]; [done|].
  simpl. by rewrite IH.
Qed.

(** X11: an output row depends only on the corresponding row of [A] (and
    on [B], [ntop] and [lower_bound]): when row [i] of one valid input and
    row [i'] of another hold the same stored entries in the same order, the
    two output rows are equal, whatever the other rows and the buffers. *)
Theorem output_row_depends_only_on_its_row {V} `{!Value V} `{!StdAlgorithm V}
    `{!StdAlgorithmSpec V}
    n_col Bp Bj (Bx : list V) ntop lower_bound
    n_row Ap Aj (Ax : list V) Cp Cj Cx i
    n_row' Ap' Aj' (Ax' : list V) Cp' Cj' Cx' i' :
  valid_input n_row n_col Ap Aj Ax Bp Bj Bx = true →
  valid_input n_row' n_col Ap' Aj' Ax' Bp Bj Bx = true →
  0 ≤ ntop →
  enough_capacity n_row n_col Ap Aj Ax Bp Bj Bx ntop lower_bound Cp Cj Cx = true →
  enough_capacity n_row' n_col Ap' Aj' Ax' Bp Bj Bx ntop lower_bound Cp' Cj' Cx' = true →
  0 ≤ i < n_row →
  0 ≤ i' < n_row' →
  row_stored Ap Aj Ax i = row_stored Ap' Aj' Ax' i' →
  output_row
    (sparse_dot_topn_source n_row n_col Ap Aj Ax Bp Bj Bx ntop lower_bound Cp Cj Cx) i
  = output_row
      (sparse_dot_topn_source n_row' n_col Ap' Aj' Ax' Bp Bj Bx ntop lower_bound
         Cp' Cj' Cx') i'.
Proof.
  intros Hvalid Hvalid' Hntop Hcap Hcap' Hi Hi' Hrow.
  rewrite (output_row_selected n_row n_col Ap Aj Ax Bp Bj Bx ntop lower_bound Cp Cj Cx
             Hvalid Hntop Hcap i Hi).
  rewrite (output_row_selected n_row' n_col Ap' Aj' Ax' Bp Bj Bx ntop lower_bound
             Cp' Cj' Cx' Hvalid' Hntop Hcap' i' Hi').
  unfold row_selected, row_candidates.
  by rewrite !accumulate_row_visits, !visits_row_stored, Hrow.
Qed.

(** ** The further properties on the examples *)

Ltac example_side :=
  first [ reflexivity | by left | by right | vm_compute; congruence
        | vm_compute; split; congruence ].

Example example2_output :
  Example2.C = Csr [0; 1; 3; 3; 7] [1; 1; 0; 8] [3; 2; 1; 9].
Proof. reflexivity. Qed.

Lemma example_plus_minmax_bounds :
  0 ≤ (sparse_dot_plus_minmax_topn_source Example.n_row Example.n_col
         Example.Ap Example.Aj Example.Ax Example.Bp Example.Bj Example.Bx
         Example.ntop Example.lower_bound Example.Cp Example.Cj Example.Cx).2
  ≤ Example.n_col.
Proof.
  apply (plus_minmax_between_zero_and_n_col (V:=Z)
           Example.n_row Example.n_col Example.Ap Example.Aj Example.Ax
           Example.Bp Example.Bj Example.Bx Example.ntop Example.lower_bound
           Example.Cp Example.Cj Example.Cx); example_side.
Defined.

Lemma example2_only_minmax_at_most_plus_minmax :
  let only := sparse_dot_only_minmax_topn_source Example2.n_row Example.n_col
                Example2.Ap Example2.Aj Example.Bp Example.Bj in
  let plus := (sparse_dot_plus_minmax_topn_source Example2.n_row Example.n_col
                 Example2.Ap Example2.Aj Example2.Ax Example.Bp Example.Bj Example.Bx
                 Example.ntop Example.lower_bound Example2.Cp Example2.Cj Example2.Cx).2 in
  only ≤ plus
  ∧ (0 < Example2.n_row →
     row_width Example.n_col Example2.Ap Example2.Aj Example.Bp Example.Bj 0 ≤ only)
  ∧ (Example2.n_row ≤ 1 → only = plus).
Proof.
  apply (only_minmax_at_most_plus_minmax (V:=Z)
           Example2.n_row Example.n_col Example2.Ap Example2.Aj Example2.Ax
           Example.Bp Example.Bj Example.Bx Example.ntop Example.lower_bound
           Example2.Cp Example2.Cj Example2.Cx); example_side.
Defined.

Lemma example_ntop_zero :
  csr_j (sparse_dot_topn_source Example.n_row Example.n_col
           Example.Ap Example.Aj Example.Ax Example.Bp Example.Bj Example.Bx
           0 Example.lower_bound Example.Cp Example.Cj Example.Cx) = Example.Cj
  ∧ csr_x (sparse_dot_topn_source Example.n_row Example.n_col
             Example.Ap Example.Aj Example.Ax Example.Bp Example.Bj Example.Bx
             0 Example.lower_bound Example.Cp Example.Cj Example.Cx) = Example.Cx
  ∧ ∀ i, 0 ≤ i ≤ Example.n_row →
      aget 0 (csr_p (sparse_dot_topn_source Example.n_row Example.n_col
                       Example.Ap Example.Aj Example.Ax Example.Bp Example.Bj Example.Bx
                       0 Example.lower_bound Example.Cp Example.Cj Example.Cx)) i = 0.
Proof.
  apply (ntop_zero_gives_empty_rows (V:=Z)
           Example.n_row Example.n_col Example.Ap Example.Aj Example.Ax
           Example.Bp Example.Bj Example.Bx Example.lower_bound
           Example.Cp Example.Cj Example.Cx); example_side.
Defined.

Lemma example_capacity_from_ntop_and_minmax :
  enough_capacity Example.n_row Example.n_col Example.Ap Example.Aj Example.Ax
    Example.Bp Example.Bj Example.Bx Example.ntop Example.lower_bound
    Example.Cp [0; 0; 0; 0] [0; 0; 0; 0] = true
  ∧ aget 0 (csr_p (sparse_dot_topn_source Example.n_row Example.n_col
                     Example.Ap Example.Aj Example.Ax Example.Bp Example.Bj Example.Bx
                     Example.ntop Example.lower_bound Example.Cp
                     [0; 0; 0; 0] [0; 0; 0; 0])) Example.n_row
    ≤ Example.n_row
      * Z.min Example.ntop
          (sparse_dot_plus_minmax_topn_source Example.n_row Example.n_col
             Example.Ap Example.Aj Example.Ax Example.Bp Example.Bj Example.Bx
             0 5 [0; 0; 0] [] []).2.
Proof.
  apply (capacity_from_ntop_and_minmax (V:=Z)
           Example.n_row Example.n_col Example.Ap Example.Aj Example.Ax
           Example.Bp Example.Bj Example.Bx Example.ntop Example.lower_bound
           Example.Cp [0; 0; 0; 0] [0; 0; 0; 0] 0 5 [0; 0; 0] [] []); example_side.
Defined.

Lemma example2_buffers_untouched :
  let nnz := Z.to_nat (aget 0 (csr_p Example2.C) Example2.n_row) in
  (length (csr_p Example2.C) = length Example2.Cp
   ∧ length (csr_j Example2.C) = length Example2.Cj
   ∧ length (csr_x Example2.C) = length Example2.Cx)
  ∧ (∀ i, Example2.n_row < i → aget 0 (csr_p Example2.C) i = aget 0 Example2.Cp i)
  ∧ drop nnz (csr_j Example2.C) = drop nnz Example2.Cj
  ∧ drop nnz (csr_x Example2.C) = drop nnz Example2.Cx.
Proof.
  apply (buffers_untouched_past_the_output (V:=Z)
           Example2.n_row Example.n_col Example2.Ap Example2.Aj Example2.Ax
           Example.Bp Example.Bj Example.Bx Example.ntop Example.lower_bound
           Example2.Cp Example2.Cj Example2.Cx Example2.C); example_side.
Defined.

Lemma example2_row_storing_nothing_is_empty :
  aget 0 (csr_p Example2.C) (2 + 1) = aget 0 (csr_p Example2.C) 2
  ∧ output_row Example2.C 2 = [].
Proof.
  apply (row_reaching_nothing_is_empty (V:=Z)
           Example2.n_row Example.n_col Example2.Ap Example2.Aj Example2.Ax
           Example.Bp Example.Bj Example.Bx Example.ntop Example.lower_bound
           Example2.Cp Example2.Cj Example2.Cx Example2.C 2); example_side.
Defined.

Lemma example2_row_columns :
  let columns := slice (csr_j Example2.C) (aget 0 (csr_p Example2.C) 1)
                   (aget 0 (csr_p Example2.C) (1 + 1)) in
  NoDup columns
  ∧ ∀ k, k ∈ columns →
      0 ≤ k < Example.n_col
      ∧ k ∈ reached Example2.Ap Example2.Aj Example.Bp Example.Bj 1.
Proof.
  apply (output_row_columns_distinct_and_in_range (V:=Z)
           Example2.n_row Example.n_col Example2.Ap Example2.Aj Example2.Ax
           Example.Bp Example.Bj Example.Bx Example.ntop Example.lower_bound
           Example2.Cp Example2.Cj Example2.Cx Example2.C 1); example_side.
Defined.

Lemma example2_no_row_is_cut :
  output_row Example2.C 1
  ≡ₚ stored_row Example.n_col Example2.Ap Example2.Aj Example2.Ax
       Example.Bp Example.Bj Example.Bx Example.lower_bound 1.
Proof.
  apply (ntop_at_least_minmax_keeps_every_candidate (V:=Z)
           Example2.n_row Example.n_col Example2.Ap Example2.Aj Example2.Ax
           Example.Bp Example.Bj Example.Bx Example.ntop Example.lower_bound
           Example2.Cp Example2.Cj Example2.Cx 0 5 [0; 0; 0; 0] [] [] 1); example_side.
Defined.

(** At binary64, row 1 of [Binary64]: the loop starts from the arrays row 0
    left, and ends with [sums[0] = ((0 + 2^53) + 1) + 1], which is [2^53]. *)
Lemma binary64_accumulated_sums :
  let s := topn_rows Binary64.n_col Binary64.Ap Binary64.Aj Binary64.Ax
             Binary64.Bp Binary64.Bj Binary64.Bx Binary64.ntop Binary64.lower_bound
             Binary64.Cp Binary64.Cj Binary64.Cx 1 in
  let acc := accumulate_row Binary64.Ap Binary64.Aj Binary64.Ax
               Binary64.Bp Binary64.Bj Binary64.Bx 1 (s_next s) (s_sums s) in
  aget vzero (r_sums acc) 0
  = stored_sum Binary64.Ap Binary64.Aj Binary64.Ax Binary64.Bp Binary64.Bj Binary64.Bx 1 0
  ∧ (0 ∉ reached Binary64.Ap Binary64.Aj Binary64.Bp Binary64.Bj 1 →
     aget vzero (r_sums acc) 0 = vzero).
Proof.
  apply (accumulated_sums_are_the_stored_sums (V:=float)
           Binary64.n_row Binary64.n_col Binary64.Ap Binary64.Aj Binary64.Ax
           Binary64.Bp Binary64.Bj Binary64.Bx Binary64.ntop Binary64.lower_bound
           Binary64.Cp Binary64.Cj Binary64.Cx 1 0); example_side.
Defined.

Lemma example2_output_is_a_valid_csr :
  let nnz := Z.to_nat (aget 0 (csr_p Example2.C) Example2.n_row) in
  valid_csr Example2.n_row Example.n_col
    (take (Z.to_nat (Example2.n_row + 1)) (csr_p Example2.C))
    (take nnz (csr_j Example2.C))
    (length (take nnz (csr_x Example2.C))) = true.
Proof.
  apply (output_is_a_valid_csr (V:=Z)
           Example2.n_row Example.n_col Example2.Ap Example2.Aj Example2.Ax
           Example.Bp Example.Bj Example.Bx Example.ntop Example.lower_bound
           Example2.Cp Example2.Cj Example2.Cx Example2.C); example_side.
Defined.

Lemma example_rows_agree :
  output_row Example.C 0 = output_row Example2.C 1.
Proof.
  apply (output_row_depends_only_on_its_row (V:=Z)
           Example.n_col Example.Bp Example.Bj Example.Bx Example.ntop Example.lower_bound
           Example.n_row Example.Ap Example.Aj Example.Ax
           Example.Cp Example.Cj Example.Cx 0
           Example2.n_row Example2.Ap Example2.Aj Example2.Ax
           Example2.Cp Example2.Cj Example2.Cx 1); example_side.
Defined.

Lemma example2_only_minmax :
  sparse_dot_only_minmax_topn_source Example2.n_row Example.n_col
    Example2.Ap Example2.Aj Example.Bp Example.Bj
  = max_over (row_width_new Example.n_col Example2.Ap Example2.Aj Example.Bp Example.Bj)
      Example2.n_row.
Proof.
  apply (only_minmax_is_max_new_columns
           Example2.n_row Example.n_col Example2.Ap Example2.Aj Example2.Ax
           Example.Bp Example.Bj Example.Bx); example_side.
Defined.

Lemma example2_row_is_top_of_stored_sums :
  is_topn 2
    (stored_row Example.n_col Example2.Ap Example2.Aj Example2.Ax
       Example.Bp Example.Bj Example.Bx Example.lower_bound 1)
    (output_row Example2.C 1).
Proof.
  apply (output_row_is_top_of_stored_sums (V:=Z)
           Example2.n_row Example.n_col Example2.Ap Example2.Aj Example2.Ax
           Example.Bp Example.Bj Example.Bx Example.ntop Example.lower_bound
           Example2.Cp Example2.Cj Example2.Cx 1); example_side.
Defined.
